(** * The resource handler of src/lib/redux/src/handler.js

    A shallow embedding of the [Handler] class: the derivation of its
    action types, its reducer, its query helpers and its four thunk-style
    action creators, followed by the properties of the specification.

    Conventions of the model.
    - Ids, archive keys and loading flags are JSON scalars ([jsval]).
      Numbers are the integers; [===] on scalars is equality (JSON has
      no NaN).
    - An entity is a JavaScript object with scalar properties, a finite
      map from property names to values; reading an absent property gives
      [undefined].
    - A JavaScript object used as a dictionary ([this.archives],
      [substate.archives]) is a finite map whose keys are the property
      keys, that is the strings the keys are converted to. The map holds
      the properties of the object itself. The names it inherits from
      [Object.prototype] are listed in [object_prototype_names]:
      [getArchive] and [fetchArchive] follow the code on them. Registering
      an archive under the key [__proto__] replaces the prototype of
      [this.archives]; what is stated about keys that are not registered
      assumes that this was not done ([plain_archives]).
    - The counter of temporary ids is a natural number (a JavaScript
      number counts exactly up to 2^53).
    - Strings are strings of 8-bit characters. [toUpperCase] maps the
      letters of ASCII; what is stated about two resource types is stated
      on the upper-case forms of their names, the [upperType] of the
      constructor, whatever the names they come from.
    - A function that can throw returns a [completion]. *)

From Stdlib Require Import ZArith NArith String Ascii List Sorted.
From stdpp Require Import base decidable option list strings gmap pretty.

Local Open Scope Z_scope.

(** ** JavaScript values *)

Inductive jsval :=
| JUndefined
| JNull
| JBool (b : bool)
| JNum (n : Z)
| JStr (s : string).

#[global] Instance jsval_eq_dec : EqDecision jsval.
Proof. solve_decision. Defined.

(** [a === b] *)
Definition strict_eq (a b : jsval) : bool := bool_decide (a = b).

(** [!! v]: the values that pass an [if (v)] or survive [v || d]. *)
Definition truthy (v : jsval) : bool :=
  match v with
  | JUndefined | JNull => false
  | JBool b => b
  | JNum n => negb (n =? 0)
  | JStr s => negb (String.eqb s "")
  end.

(** [String(v)], also the property key [v] is converted to in [o[v]]. *)
Definition to_string (v : jsval) : string :=
  match v with
  | JUndefined => "undefined"
  | JNull => "null"
  | JBool true => "true"
  | JBool false => "false"
  | JNum n => pretty n
  | JStr s => s
  end.

Inductive js_error :=
| TypeError
| Error (message : string)
| ServerError (message code : string).

Inductive completion (A : Type) :=
| Returns (a : A)
| Throws (e : js_error).
Arguments Returns {A} a.
Arguments Throws {A} e.

Definition is_thrown {A} (c : completion A) : bool :=
  match c with Throws _ => true | Returns _ => false end.

(** ** Entities *)

Abbreviation entity := (gmap string jsval).

(** [o.k] on an object *)
Definition prop (o : entity) (k : string) : jsval := default JUndefined (o !! k).

(** [Array.prototype.indexOf]: the first index whose element is [===] to
    [v], or [-1]. *)
Fixpoint indexOf_from (l : list jsval) (v : jsval) (i : Z) : Z :=
  match l with
  | [] => -1
  | x :: l' => if strict_eq x v then i else indexOf_from l' v (i + 1)
  end.

Definition indexOf (l : list jsval) (v : jsval) : Z := indexOf_from l v 0.

(** [String.prototype.indexOf] *)
Definition str_indexOf (s pat : string) : Z :=
  match String.index 0 pat s with
  | Some n => Z.of_nat n
  | None => -1
  end.

(** ** The substate *)

(** What [substate.posts] can hold, as far as the code tells the cases
    apart: a falsy value, a truthy value that is not an array (the [{}] of
    [DEFAULT_STATE]), an array of entities, or the array [[ undefined ]]
    that a success action without [data] leaves behind. *)
Inductive posts_value :=
| PostsMissing
| PostsObject
| PostsArray (l : list entity)
| PostsHole.

(** The entities held in [posts]. *)
Definition entities (p : posts_value) : list entity :=
  match p with PostsArray l => l | _ => [] end.

(** [posts] is an array of entities, or absent. *)
Definition posts_usable (p : posts_value) : bool :=
  match p with PostsMissing | PostsArray _ => true | _ => false end.

Module Substate.
Record t := mk {
  archives : option (gmap string (list jsval));
  loadingPost : jsval;
  loadingArchive : jsval;
  posts : posts_value;
  saving : jsval;
  (* read by [isPostLoading]; no branch of the reducer writes it and
     [DEFAULT_STATE] does not have it *)
  loadingSingle : jsval;
}.
End Substate.

Definition DEFAULT_STATE : Substate.t :=
  {| Substate.archives := Some ∅;
     Substate.loadingPost := JBool false;
     Substate.loadingArchive := JBool false;
     Substate.posts := PostsObject;
     Substate.saving := JBool false;
     Substate.loadingSingle := JUndefined |}.

(** ** Actions *)

(** [{ type, id?, data?, results?, error? }] *)
Module Action.
Record t := mk {
  type : string;
  id : jsval;
  data : option entity;
  results : option (list entity);
  error : option js_error;
}.
End Action.

Record action_types := {
  archiveStart : string;
  archiveSuccess : string;
  archiveError : string;
  getStart : string;
  getSuccess : string;
  getError : string;
  updateStart : string;
  updateSuccess : string;
  updateError : string;
  createStart : string;
  createSuccess : string;
  createError : string;
}.

(** [String.prototype.toUpperCase] on the characters of ASCII: the letters
    [a] to [z] go to [A] to [Z], every other character stays. *)
Definition upper_ascii (c : ascii) : ascii :=
  let n := nat_of_ascii c in
  if ((97 <=? n) && (n <=? 122))%nat then ascii_of_nat (n - 32) else c.

Fixpoint toUpperCase (s : string) : string :=
  match s with
  | EmptyString => EmptyString
  | String c s' => String (upper_ascii c) (toUpperCase s')
  end.

(** The table built by the constructor from [upperType], no overrides. *)
Definition derived_actions (upperType : string) : action_types :=
  {| archiveStart   := "QUERY_" +:+ upperType +:+ "_REQUEST";
     archiveSuccess := "QUERY_" +:+ upperType;
     archiveError   := "QUERY_" +:+ upperType +:+ "_ERROR";
     getStart       := "LOAD_" +:+ upperType +:+ "_REQUEST";
     getSuccess     := "LOAD_" +:+ upperType;
     getError       := "LOAD_" +:+ upperType +:+ "_ERROR";
     updateStart    := "UPDATE_" +:+ upperType +:+ "_REQUEST";
     updateSuccess  := "UPDATE_" +:+ upperType;
     updateError    := "UPDATE_" +:+ upperType +:+ "_ERROR";
     createStart    := "CREATE_" +:+ upperType +:+ "_REQUEST";
     createSuccess  := "CREATE_" +:+ upperType;
     createError    := "CREATE_" +:+ upperType +:+ "_ERROR" |}.

(** [this.actions] of [new Handler({ type, ... })] *)
Definition actions_of_type (type : string) : action_types :=
  derived_actions (toUpperCase type).

(** The twelve strings of a table. *)
Definition action_strings (a : action_types) : list string :=
  [ archiveStart a; archiveSuccess a; archiveError a;
    getStart a; getSuccess a; getError a;
    updateStart a; updateSuccess a; updateError a;
    createStart a; createSuccess a; createError a ].

(** ** The reducer *)

(** [{ ...state, loadingArchive: v }] and its siblings *)
Definition with_loadingArchive (v : jsval) (s : Substate.t) : Substate.t :=
  Substate.mk (Substate.archives s) (Substate.loadingPost s) v
    (Substate.posts s) (Substate.saving s) (Substate.loadingSingle s).

Definition with_loadingPost (v : jsval) (s : Substate.t) : Substate.t :=
  Substate.mk (Substate.archives s) v (Substate.loadingArchive s)
    (Substate.posts s) (Substate.saving s) (Substate.loadingSingle s).

Definition with_saving (v : jsval) (s : Substate.t) : Substate.t :=
  Substate.mk (Substate.archives s) (Substate.loadingPost s)
    (Substate.loadingArchive s) (Substate.posts s) v (Substate.loadingSingle s).

Definition with_posts (p : posts_value) (s : Substate.t) : Substate.t :=
  Substate.mk (Substate.archives s) (Substate.loadingPost s)
    (Substate.loadingArchive s) p (Substate.saving s)
    (Substate.loadingSingle s).

Definition with_archives (a : gmap string (list jsval)) (s : Substate.t) : Substate.t :=
  Substate.mk (Some a) (Substate.loadingPost s) (Substate.loadingArchive s)
    (Substate.posts s) (Substate.saving s) (Substate.loadingSingle s).

Definition bind {A B} (c : completion A) (k : A → completion B) : completion B :=
  match c with
  | Returns a => k a
  | Throws e => Throws e
  end.

Notation "x ←! c ; k" := (bind c (λ x, k))
  (at level 20, c at level 100, k at level 200, right associativity,
   format "x  ←!  c ;  '/' k") : stdpp_scope.

(** Reading a property or calling a method of [undefined] is a TypeError. *)
Definition defined {A} (o : option A) : completion A :=
  match o with
  | Some a => Returns a
  | None => Throws TypeError
  end.

(** [( posts || [] ).filter( post => f( post ) )], where [f] reads
    [post.id]: the method exists on arrays only, and the callback fails on
    an entry that is [undefined]. *)
Definition posts_or_empty_filter (posts : posts_value) (f : entity → bool)
  : completion (list entity) :=
  match posts with
  | PostsMissing => Returns (List.filter f [])
  | PostsObject | PostsHole => Throws TypeError
  | PostsArray l => Returns (List.filter f l)
  end.

(** The [posts] of the getSuccess, createSuccess and updateSuccess cases:
    [[ ...( posts || [] ).filter( post => post.id !== action.data.id ),
    action.data ]]. When the action has no [data], the callback fails at the
    first post it visits; with no post to visit, [undefined] is appended. *)
Definition replace_existing (posts : posts_value) (data : option entity)
  : completion posts_value :=
  match data with
  | Some data =>
      existing ←! posts_or_empty_filter posts
                    (λ post, negb (strict_eq (prop post "id") (prop data "id")));
      Returns (PostsArray (existing ++ [data]))
  | None =>
      match posts with
      | PostsMissing | PostsArray [] => Returns PostsHole
      | _ => Throws TypeError
      end
  end.

(** [{ ...state.archives, [ key ]: ids }] *)
Definition spread_archives (a : option (gmap string (list jsval)))
  (key : jsval) (ids : list jsval) : gmap string (list jsval) :=
  <[ to_string key := ids ]> (default ∅ a).

Definition reducer (actions : action_types) (state : option Substate.t)
  (action : Action.t) : completion Substate.t :=
  let state := default DEFAULT_STATE state in
  let type := Action.type action in
  if String.eqb type (archiveStart actions) then
    Returns (with_loadingArchive (Action.id action) state)
  else if String.eqb type (archiveSuccess actions) then
    results ←! defined (Action.results action);
    let ids := map (λ post, prop post "id") results in
    deduplicated ←! posts_or_empty_filter (Substate.posts state)
                      (λ post, indexOf ids (prop post "id") =? -1);
    Returns (with_posts (PostsArray (deduplicated ++ results))
              (with_archives
                 (spread_archives (Substate.archives state) (Action.id action) ids)
                 (with_loadingArchive (JBool false) state)))
  else if String.eqb type (archiveError actions) then
    Returns (with_loadingArchive (JBool false) state)
  else if String.eqb type (getStart actions) then
    Returns (with_loadingPost (Action.id action) state)
  else if String.eqb type (getSuccess actions) then
    posts ←! replace_existing (Substate.posts state) (Action.data action);
    Returns (with_posts posts (with_loadingPost (JBool false) state))
  else if String.eqb type (getError actions) then
    Returns (with_loadingPost (JBool false) state)
  else if String.eqb type (createStart actions)
       || String.eqb type (updateStart actions) then
    Returns (with_saving (Action.id action) state)
  else if String.eqb type (createSuccess actions)
       || String.eqb type (updateSuccess actions) then
    posts ←! replace_existing (Substate.posts state) (Action.data action);
    Returns (with_posts posts (with_saving (JBool false) state))
  else if String.eqb type (createError actions)
       || String.eqb type (updateError actions) then
    Returns (with_saving (JBool false) state)
  else
    Returns state.

(** ** Query helpers *)

Definition isArchiveLoading (substate : Substate.t) (id : jsval) : bool :=
  strict_eq (Substate.loadingArchive substate) id.

(** The property names every plain object inherits from
    [Object.prototype]. For such a [name], [name in o] holds of every plain
    object [o], and [o[ name ]] is a truthy value, a function or the
    prototype itself, unless [o] has a property of its own of that name. *)
Definition object_prototype_names : list string :=
  [ "constructor"; "__defineGetter__"; "__defineSetter__"; "hasOwnProperty";
    "__lookupGetter__"; "__lookupSetter__"; "isPrototypeOf";
    "propertyIsEnumerable"; "toString"; "valueOf"; "__proto__";
    "toLocaleString" ].

(** The result is [None] for [null]. Where the key is no property of
    [substate.archives] itself but an inherited name, [ids] is the inherited
    value: it is truthy, and it has no [indexOf], so that the callback of
    [filter] fails at the first post it visits. *)
Definition getArchive (substate : Substate.t) (id : jsval)
  : completion (option (list entity)) :=
  match Substate.archives substate, Substate.posts substate with
  | None, _ | _, PostsMissing => Returns None
  | Some archives, posts =>
      match archives !! to_string id with
      | None =>
          if bool_decide (to_string id ∈ object_prototype_names) then
            match posts with
            | PostsArray [] => Returns (Some [])
            | _ => Throws TypeError
            end
          else Returns None
      | Some ids =>
          match posts with
          | PostsArray l =>
              Returns (Some (List.filter (λ app, indexOf ids (prop app "id") >=? 0) l))
          | _ => Throws TypeError
          end
      end
  end.

Definition isPostLoading (substate : Substate.t) (id : jsval) : bool :=
  strict_eq (Substate.loadingSingle substate) id.

(** What [getSingle] hands back: [null], the [undefined] of a [find] with
    no match, or the post. *)
Inductive single_result :=
| SingleNull
| SingleUndefined
| SinglePost (post : entity).

Definition getSingle (substate : Substate.t) (id : jsval) : completion single_result :=
  match Substate.posts substate with
  | PostsMissing => Returns SingleNull
  | PostsObject | PostsHole => Throws TypeError
  | PostsArray l =>
      match List.find (λ post, strict_eq (prop post "id") id) l with
      | Some post => Returns (SinglePost post)
      | None => Returns SingleUndefined
      end
  end.

Definition isPostSaving (substate : Substate.t) (id : jsval) : bool :=
  strict_eq (Substate.saving substate) id.

(** [substate.saving.indexOf( '_tmp_' ) === 0]: only a string has the
    method; on [undefined] and [null] the property read itself fails. *)
Definition isPostCreating (substate : Substate.t) : completion bool :=
  match Substate.saving substate with
  | JStr s => Returns (str_indexOf s "_tmp_" =? 0)
  | _ => Throws TypeError
  end.

(** ** The handler and the world its thunks run in *)

Abbreviation params := (gmap string jsval).

(** A query spec: static parameters, or a function of the state. *)
Inductive query_spec :=
| QueryParams (q : params)
| QueryFunction (f : Substate.t → params).

Module Handler.
Record t := mk {
  url : string;
  query : params;
  archives : gmap string query_spec;
  rethrow : bool;
  actions : action_types;
  tempId : N;
}.
End Handler.

(** The options of the constructor; [rethrow] is [None] when the key is
    not in [options]. Overrides of the action types are left out. *)
Record options := {
  opt_url : string;
  opt_query : params;
  opt_nonce : jsval;
  opt_type : string;
  opt_rethrow : option bool;
}.

Definition constructor (o : options) : Handler.t :=
  {| Handler.url := opt_url o;
     Handler.query := <[ "_wpnonce" := opt_nonce o ]> (opt_query o);
     Handler.archives := ∅;
     Handler.rethrow := default true (opt_rethrow o);
     Handler.actions := actions_of_type (opt_type o);
     Handler.tempId := 0%N |}.

(** [this.archives[ id ] = query] adds or replaces a property of the
    object, for every key but [__proto__], where it replaces the prototype
    of the object (see [plain_archives]). *)
Definition registerArchive (id : jsval) (query : query_spec) (h : Handler.t) : Handler.t :=
  Handler.mk (Handler.url h) (Handler.query h)
    (<[ to_string id := query ]> (Handler.archives h))
    (Handler.rethrow h) (Handler.actions h) (Handler.tempId h).

Record request := {
  req_method : string;
  req_url : string;
  req_args : params;
  req_body : option entity;
}.

(** The handler instance, the store the reducer is mounted in, and what the
    thunks did to the outside: the actions handed to [dispatch], the errors
    logged, the requests issued. *)
Record world := {
  handler : Handler.t;
  store : Substate.t;
  dispatched : list Action.t;
  console : list js_error;
  requests : list request;
}.

Definition with_handler (h : Handler.t) (w : world) : world :=
  {| handler := h; store := store w; dispatched := dispatched w;
     console := console w; requests := requests w |}.

Definition with_store (s : Substate.t) (w : world) : world :=
  {| handler := handler w; store := s; dispatched := dispatched w;
     console := console w; requests := requests w |}.

Definition add_dispatched (a : Action.t) (w : world) : world :=
  {| handler := handler w; store := store w; dispatched := dispatched w ++ [a];
     console := console w; requests := requests w |}.

Definition add_console (e : js_error) (w : world) : world :=
  {| handler := handler w; store := store w; dispatched := dispatched w;
     console := console w ++ [e]; requests := requests w |}.

Definition add_request (r : request) (w : world) : world :=
  {| handler := handler w; store := store w; dispatched := dispatched w;
     console := console w; requests := requests w ++ [r] |}.

(** A computation that reads and writes the world and may throw; the world
    keeps the effects made before the throw. *)
Definition M (A : Type) : Type := world → completion A * world.

Definition ret {A} (a : A) : M A := λ w, (Returns a, w).

Definition throw {A} (e : js_error) : M A := λ w, (Throws e, w).

Definition seq {A B} (c : M A) (k : A → M B) : M B :=
  λ w, match c w with
       | (Returns a, w') => k a w'
       | (Throws e, w') => (Throws e, w')
       end.

Notation "'let*' x := c 'in' k" := (seq c (λ x, k))
  (at level 10, x name, c at level 100, k at level 200).
Notation "c ;; k" := (seq c (λ _, k))
  (at level 100, k at level 200, right associativity).

Definition this : M Handler.t := λ w, (Returns (handler w), w).

Definition getState : M Substate.t := λ w, (Returns (store w), w).

Definition next_tempId (h : Handler.t) : Handler.t :=
  Handler.mk (Handler.url h) (Handler.query h) (Handler.archives h)
    (Handler.rethrow h) (Handler.actions h) (Handler.tempId h + 1)%N.

(** [this.tempId++]: yields the old value. *)
Definition tempId_postincrement : M N :=
  λ w, (Returns (Handler.tempId (handler w)),
        with_handler (next_tempId (handler w)) w).

Definition console_log (e : js_error) : M unit :=
  λ w, (Returns (), add_console e w).

(** [dispatch] of the store: the action goes through the reducer, whose
    result becomes the state; when the reducer throws, the state stays and
    the exception reaches the caller of [dispatch]. *)
Definition dispatch (a : Action.t) : M unit :=
  λ w, match reducer (Handler.actions (handler w)) (Some (store w)) a with
       | Returns s => (Returns (), with_store s (add_dispatched a w))
       | Throws e => (Throws e, add_dispatched a w)
       end.

(** A promise on the outcome of one request: what runs once the request
    settles with data of type [R] or an error, and the value ([Returns]) or
    rejection ([Throws]) the promise settles with. *)
Definition promise (R A : Type) : Type := completion R → M A.

Definition then_ {R A B} (p : promise R A) (f : A → M B) : promise R B :=
  λ outcome, seq (p outcome) f.

Definition catch_ {R A} (p : promise R A) (g : js_error → M A) : promise R A :=
  λ outcome w,
    match p outcome w with
    | (Throws e, w') => g e w'
    | r => r
    end.

(** [this.fetch( url, query, options )]: issues the request; the promise
    settles with the parsed response. *)
Definition fetch {R} (url : string) (query : params) (method : string)
  (body : option entity) : M (promise R R) :=
  λ w, (Returns (λ outcome, λ w', (outcome, w')),
        add_request {| req_method := method; req_url := url;
                       req_args := query ∪ Handler.query (handler w);
                       req_body := body |} w).

(** What a thunk gives back: the value it returns ([None] for [undefined])
    and the promise chain it has set up on its request. *)
Record thunk_result (R : Type) := {
  returned : option (promise R jsval);
  pending : promise R jsval;
}.
Arguments returned {R} _.
Arguments pending {R} _.

Definition plain (type : string) (id : jsval) : Action.t :=
  Action.mk type id None None None.

(** The [.catch] handler shared by the four thunks. *)
Definition on_error (type : action_types → string) (id : jsval) (error : js_error)
  : M jsval :=
  console_log error ;;
  let* h := this in
  dispatch (Action.mk (type (Handler.actions h)) id None None (Some error)) ;;
  let* h := this in
  if Handler.rethrow h then throw error else ret JUndefined.

(** What [this.archives[ id ]] finds: the query registered under the key,
    or else the property of that name that the object inherits from
    [Object.prototype]. *)
Inductive archive_entry :=
| Registered (query : query_spec)
| Inherited (name : string).

(** [this.archives[ id ]], with [None] where [! ( id in this.archives )]. *)
Definition archives_entry (h : Handler.t) (id : jsval) : option archive_entry :=
  match Handler.archives h !! to_string id with
  | Some query => Some (Registered query)
  | None =>
      if bool_decide (to_string id ∈ object_prototype_names)
      then Some (Inherited (to_string id))
      else None
  end.

(** [{ ...s }] for a string [s]: its characters under their indices. *)
Definition spread_string (s : string) : params :=
  list_to_map
    (imap (λ i c, (pretty i, JStr (String c EmptyString))) (list_ascii_of_string s)).

(** [{ ...state }] as parameters: the members of the state object that
    hold a scalar. Its members [archives] and [posts] hold an object and an
    array; a parameter of the model is a scalar, and these two are not
    recorded. *)
Definition spread_state (s : Substate.t) : params :=
  list_to_map
    (List.filter (λ member, negb (bool_decide (member.2 = JUndefined)))
       [ ("loadingPost", Substate.loadingPost s);
         ("loadingArchive", Substate.loadingArchive s);
         ("saving", Substate.saving s);
         ("loadingSingle", Substate.loadingSingle s) ]).

(** [isFunction( query ) ? query( getState() ) : query] where [query] is
    the property inherited under [name], and what the spread
    [{ ...queryArgs }] then makes of the result. The call is a plain call
    in strict code, so the function runs with [this] undefined.
    - [__proto__] is [Object.prototype] itself, no function, with no
      enumerable property.
    - [toString] answers ["[object Undefined]"].
    - [constructor] is [Object], which hands the state object back.
    - Each of the others, given the state object, comes to convert
      [this] to an object, which fails on [undefined] with a TypeError. *)
Definition inherited_query (name : string) (state : Substate.t)
  : completion params :=
  if String.eqb name "__proto__" then Returns ∅
  else if String.eqb name "toString" then Returns (spread_string "[object Undefined]")
  else if String.eqb name "constructor" then Returns (spread_state state)
  else Throws TypeError.

Definition fetchArchive (id : jsval) : M (thunk_result (list entity)) :=
  let* h := this in
  match archives_entry h id with
  | None => throw (Error ("Invalid archive ID: " +:+ to_string id))
  | Some query =>
      dispatch (plain (archiveStart (Handler.actions h)) id) ;;
      let* queryArgs :=
        match query with
        | Registered (QueryFunction f) => let* state := getState in ret (f state)
        | Registered (QueryParams q) => ret q
        | Inherited name =>
            let* state := getState in λ w, (inherited_query name state, w)
        end in
      let* p := fetch (Handler.url h) queryArgs "GET" None in
      let chain :=
        catch_
          (then_ p (λ results,
             let* h := this in
             dispatch (Action.mk (archiveSuccess (Handler.actions h)) id
                         None (Some results) None) ;;
             ret id))
          (on_error archiveError id) in
      ret {| returned := None; pending := chain |}
  end.

(** [context] is [None] when the argument is left out. *)
Definition fetchSingle (id : jsval) (context : option string)
  : M (thunk_result entity) :=
  let context := default "view" context in
  let* h := this in
  dispatch (plain (getStart (Handler.actions h)) id) ;;
  let* p := fetch (Handler.url h +:+ "/" +:+ to_string id)
              {[ "context" := JStr context ]} "GET" None in
  let chain :=
    catch_
      (then_ p (λ data,
         let* h := this in
         dispatch (Action.mk (getSuccess (Handler.actions h)) id
                     (Some data) None None) ;;
         ret id))
      (on_error getError id) in
  ret {| returned := Some chain; pending := chain |}.

Definition updateSingle (data : entity) : M (thunk_result entity) :=
  let id := prop data "id" in
  if negb (truthy id) then throw (Error "Post does not have `id` property.")
  else
    let* h := this in
    dispatch (Action.mk (updateStart (Handler.actions h)) id (Some data) None None) ;;
    let* p := fetch (Handler.url h +:+ "/" +:+ to_string id)
                {[ "context" := JStr "edit" ]} "PUT" (Some data) in
    let chain :=
      catch_
        (then_ p (λ data,
           let* h := this in
           dispatch (Action.mk (updateSuccess (Handler.actions h)) id
                       (Some data) None None) ;;
           ret id))
        (on_error updateError id) in
    ret {| returned := Some chain; pending := chain |}.

Definition createSingle (data : entity) : M (thunk_result entity) :=
  let* n := tempId_postincrement in
  let id := JStr ("_tmp_" +:+ pretty n) in
  let* h := this in
  dispatch (Action.mk (createStart (Handler.actions h)) id (Some data) None None) ;;
  let* p := fetch (Handler.url h) {[ "context" := JStr "edit" ]} "POST" (Some data) in
  let chain :=
    catch_
      (then_ p (λ data,
         let* h := this in
         dispatch (Action.mk (createSuccess (Handler.actions h)) id
                     (Some data) None None) ;;
         ret (prop data "id")))
      (on_error createError id) in
  ret {| returned := Some chain; pending := chain |}.

(** * Notions of the statements *)

(** ** Strings and action types *)

Definition chars (s : string) : list ascii := list_ascii_of_string s.

(** Two upper-cased names that keep their tables apart: they differ, and
    neither is the other followed by [_REQUEST] or by [_ERROR]. *)
Definition separate (u1 u2 : string) : Prop :=
  u1 ≠ u2
  ∧ u1 ≠ u2 +:+ "_REQUEST" ∧ u1 ≠ u2 +:+ "_ERROR"
  ∧ u2 ≠ u1 +:+ "_REQUEST" ∧ u2 ≠ u1 +:+ "_ERROR".

(** The pieces the constructor puts around [upperType]. *)
Definition verbs : list string := ["QUERY_"; "LOAD_"; "UPDATE_"; "CREATE_"].
Definition suffixes : list string := ["_REQUEST"; ""; "_ERROR"].

(** [`${ verb }${ upperType }${ suffix }`] *)
Definition tag (verb upperType suffix : string) : string :=
  verb +:+ upperType +:+ suffix.

(** The twelve keys of [this.actions]. *)
Inductive kind :=
| ArchiveStart | ArchiveSuccess | ArchiveError
| GetStart | GetSuccess | GetError
| UpdateStart | UpdateSuccess | UpdateError
| CreateStart | CreateSuccess | CreateError.

#[global] Instance kind_eq_dec : EqDecision kind.
Proof. solve_decision. Defined.

(** [actions[ k ]] *)
Definition type_of (a : action_types) (k : kind) : string :=
  match k with
  | ArchiveStart => archiveStart a
  | ArchiveSuccess => archiveSuccess a
  | ArchiveError => archiveError a
  | GetStart => getStart a
  | GetSuccess => getSuccess a
  | GetError => getError a
  | UpdateStart => updateStart a
  | UpdateSuccess => updateSuccess a
  | UpdateError => updateError a
  | CreateStart => createStart a
  | CreateSuccess => createSuccess a
  | CreateError => createError a
  end.

Definition kind_verb (k : kind) : string :=
  match k with
  | ArchiveStart | ArchiveSuccess | ArchiveError => "QUERY_"
  | GetStart | GetSuccess | GetError => "LOAD_"
  | UpdateStart | UpdateSuccess | UpdateError => "UPDATE_"
  | CreateStart | CreateSuccess | CreateError => "CREATE_"
  end.

Definition kind_suffix (k : kind) : string :=
  match k with
  | ArchiveStart | GetStart | UpdateStart | CreateStart => "_REQUEST"
  | ArchiveSuccess | GetSuccess | UpdateSuccess | CreateSuccess => ""
  | ArchiveError | GetError | UpdateError | CreateError => "_ERROR"
  end.

Definition all_kinds : list kind :=
  [ ArchiveStart; ArchiveSuccess; ArchiveError; GetStart; GetSuccess; GetError;
    UpdateStart; UpdateSuccess; UpdateError; CreateStart; CreateSuccess;
    CreateError ].

(** ** The reducer, case by case *)

(** The body shared by the getSuccess, createSuccess and updateSuccess
    cases, up to the flag [finish] resets. *)
Definition put_post (data : option entity) (finish : Substate.t → Substate.t)
  (state : Substate.t) : completion Substate.t :=
  posts ←! replace_existing (Substate.posts state) data;
  Returns (with_posts posts (finish state)).

(** The reducer as a case analysis on the key the action type stands for:
    each case is the body of the corresponding [case] of the [switch]. *)
Definition transition (k : kind) (state : Substate.t) (action : Action.t)
  : completion Substate.t :=
  match k with
  | ArchiveStart => Returns (with_loadingArchive (Action.id action) state)
  | ArchiveSuccess =>
      results ←! defined (Action.results action);
      let ids := map (λ post, prop post "id") results in
      deduplicated ←! posts_or_empty_filter (Substate.posts state)
                        (λ post, indexOf ids (prop post "id") =? -1);
      Returns (with_posts (PostsArray (deduplicated ++ results))
                (with_archives
                   (spread_archives (Substate.archives state) (Action.id action) ids)
                   (with_loadingArchive (JBool false) state)))
  | ArchiveError => Returns (with_loadingArchive (JBool false) state)
  | GetStart => Returns (with_loadingPost (Action.id action) state)
  | GetSuccess => put_post (Action.data action) (with_loadingPost (JBool false)) state
  | GetError => Returns (with_loadingPost (JBool false) state)
  | CreateStart | UpdateStart => Returns (with_saving (Action.id action) state)
  | CreateSuccess | UpdateSuccess =>
      put_post (Action.data action) (with_saving (JBool false)) state
  | CreateError | UpdateError => Returns (with_saving (JBool false) state)
  end.

(** ** Posts and their ids *)

(** [posts.map( post => post.id )] *)
Definition ids_of (l : list entity) : list jsval := map (λ post, prop post "id") l.

(** [posts] has at most one entry per entity id. *)
Definition unique_ids (l : list entity) : Prop := NoDup (ids_of l).

(** The posts left by the archiveSuccess branch. *)
Definition merge_results (l results : list entity) : list entity :=
  List.filter (λ post, indexOf (map (λ post, prop post "id") results)
                         (prop post "id") =? -1) l ++ results.

(** The posts left by the getSuccess, createSuccess and updateSuccess
    branches. *)
Definition replace_post (l : list entity) (data : entity) : list entity :=
  List.filter (λ post, negb (strict_eq (prop post "id") (prop data "id"))) l
  ++ [data].

(** An action of a success type has the payload its branch reads:
    [results] for archiveSuccess, [data] for the other three. *)
Definition carries_payload (actions : action_types) (action : Action.t) : Prop :=
  (Action.type action = archiveSuccess actions → is_Some (Action.results action))
  ∧ (Action.type action ∈ [getSuccess actions; createSuccess actions;
                            updateSuccess actions] →
     is_Some (Action.data action)).

(** The result list of an archiveSuccess action has no two entries with
    the same id. *)
Definition distinct_results (actions : action_types) (action : Action.t) : Prop :=
  ∀ results,
    Action.type action = archiveSuccess actions →
    Action.results action = Some results → unique_ids results.

(** The store taking a list of actions through the reducer, one after the
    other. *)
Fixpoint reduce_all (actions : action_types) (state : Substate.t)
  (l : list Action.t) : completion Substate.t :=
  match l with
  | [] => Returns state
  | action :: l' =>
      state' ←! reducer actions (Some state) action;
      reduce_all actions state' l'
  end.

(** ** Thunks *)


(** The error of [fetchArchive]. *)
Definition invalid_archive (id : jsval) : js_error :=
  Error ("Invalid archive ID: " +:+ to_string id).

(** [this.archives] has the prototype it was created with: no archive was
    registered under the key [__proto__], an assignment that replaces the
    prototype of the object instead of adding a property to it. *)
Definition plain_archives (h : Handler.t) : Prop :=
  Handler.archives h !! "__proto__" = None.

(** [id] does not name a property inherited from [Object.prototype]. *)
Definition own_name (id : jsval) : Prop :=
  to_string id ∉ object_prototype_names.

(** A value that is not a number, or a number JavaScript holds exactly and
    prints digit by digit. *)
Definition safe_integer (v : jsval) : Prop :=
  match v with
  | JNum n => - 2 ^ 53 < n < 2 ^ 53
  | _ => True
  end.

(** ['_tmp_' + n] *)
Definition temp_id (n : N) : jsval := JStr ("_tmp_" +:+ pretty n).

(** An id that begins with the temp prefix. *)
Definition is_temp_id (v : jsval) : bool :=
  match v with
  | JStr s => String.prefix "_tmp_" s
  | _ => false
  end.

(** No entity of [posts] has a temp id. *)
Definition no_temp_entity (p : posts_value) : Prop :=
  ∀ e, e ∈ entities p → is_temp_id (prop e "id") = false.

(** The values [this.tempId] goes through in [k] increments from [t]. *)
Fixpoint counters (t : N) (k : nat) : list N :=
  match k with
  | O => []
  | S k' => t :: counters (t + 1)%N k'
  end.

(** Successive calls of the thunk of [createSingle], one per payload. *)
Fixpoint create_all (l : list entity) : M (list (thunk_result entity)) :=
  match l with
  | [] => ret []
  | data :: l' =>
      let* r := createSingle data in
      let* rs := create_all l' in
      ret (r :: rs)
  end.

(** What the chain of a create does when its request settles, in whatever
    world that happens: the handler and its counter stay as they are,
    [saving] ends [false], and an entity of [posts] was there before or is
    the entity the server returned. *)
Definition settles_without_temp (type : string) (r : thunk_result entity) : Prop :=
  ∀ outcome w,
    Handler.actions (handler w) = actions_of_type type →
    let w' := snd (pending r outcome w) in
    handler w' = handler w
    ∧ Substate.saving (store w') = JBool false
    ∧ (∀ e, e ∈ entities (Substate.posts (store w')) →
            e ∈ entities (Substate.posts (store w)) ∨ outcome = Returns e)
    ∧ (∀ data, outcome = Returns data →
               no_temp_entity (Substate.posts (store w)) →
               is_temp_id (prop data "id") = false →
               no_temp_entity (Substate.posts (store w'))).

(** The createStart action of the create that draws counter value [n]. *)
Definition create_start (type : string) (n : N) (data : entity) : Action.t :=
  Action.mk (createStart (actions_of_type type)) (temp_id n) (Some data) None None.

(** ** Worked inputs *)

(** A handler for the resource type [post] with the archive [featured]
    registered, on a store that holds the default substate. *)
Definition example_options : options :=
  {| opt_url := "/wp-json/wp/v2/posts"; opt_query := ∅;
     opt_nonce := JStr "nonce"; opt_type := "post"; opt_rethrow := None |}.

Definition example_world : world :=
  {| handler := registerArchive (JStr "featured")
                  (QueryParams {[ "orderby" := JStr "date" ]})
                  (constructor example_options);
     store := DEFAULT_STATE; dispatched := []; console := []; requests := [] |}.

Definition post (n : Z) (title : string) : entity :=
  {[ "id" := JNum n; "title" := JStr title ]}.

Definition archive_success (type : string) (key : string) (results : list entity)
  : Action.t :=
  Action.mk (archiveSuccess (actions_of_type type)) (JStr key) None (Some results) None.

Definition get_success (type : string) (data : entity) : Action.t :=
  Action.mk (getSuccess (actions_of_type type)) (prop data "id") (Some data) None None.

(** Settles [carries_payload] and [distinct_results] on a closed action. *)
Ltac closed_action :=
  let H := fresh in
  first
    [ split; intros H;
      first
        [ by vm_compute in H
        | repeat (apply elem_of_cons in H as [H|H]; [by vm_compute in H|]);
          by apply elem_of_nil in H
        | by eexists ]
    | intros ? H; first [ by vm_compute in H | intros [= <-] ];
      apply (bool_decide_unpack _); by vm_compute ].

(** A substate with one cached post, and a run of actions over it: the
    archive [featured] is fetched and answers with posts 1 and 2, then post
    2 is fetched on its own. *)
Definition example_state : Substate.t :=
  with_posts (PostsArray [post 1 "old"]) DEFAULT_STATE.

Definition example_run : list Action.t :=
  [ plain (archiveStart (actions_of_type "post")) (JStr "featured");
    archive_success "post" "featured" [post 1 "a"; post 2 "b"];
    get_success "post" (post 2 "c") ].

(** ** The response parser *)

(** A value as [JSON.parse] builds it: a scalar, an array of values, or an
    object with its members. [JsonScalar JUndefined] is what reading a
    member that is not there gives. *)
#[warnings="-register-all"] Inductive json :=
| JsonScalar (v : jsval)
| JsonArray (items : list json)
| JsonObject (members : gmap string json).

(** A response: its [ok] flag and what [resp.json()] settles with. *)
Record response := {
  resp_ok : bool;
  resp_json : completion json;
}.

(** The error [parseResponse] builds and throws. *)
Record response_error := {
  err_message : string;
  err_code : json;
  err_response : response;
  err_data : json;
}.

(** How the promise of [parseResponse] settles: with the data, with the
    error it builds, or with an error from underneath ([resp.json()]
    rejecting, a property read on [null], a conversion to a string that
    fails). *)
Inductive parsed :=
| Resolves (data : json)
| RejectsWith (err : response_error)
| Rejects (e : js_error).

(** [data.k]: a member of an object; [undefined] on an array and on a
    boolean, a number or a string; a TypeError on [null]. *)
Definition member (data : json) (k : string) : completion json :=
  match data with
  | JsonObject members => Returns (default (JsonScalar JUndefined) (members !! k))
  | JsonArray _ => Returns (JsonScalar JUndefined)
  | JsonScalar JUndefined | JsonScalar JNull => Throws TypeError
  | JsonScalar _ => Returns (JsonScalar JUndefined)
  end.

(** [!! v]: every array and every object is truthy. *)
Definition json_truthy (v : json) : bool :=
  match v with
  | JsonScalar v => truthy v
  | JsonArray _ | JsonObject _ => true
  end.

(** [a || b] *)
Definition or_else (a b : json) : json := if json_truthy a then a else b.

(** The completions of a list, in order: the first error wins. *)
Fixpoint all_returned {A} (l : list (completion A)) : completion (list A) :=
  match l with
  | [] => Returns []
  | c :: l' => a ←! c; rest ←! all_returned l'; Returns (a :: rest)
  end.

(** [String( v )], the conversion [new Error( v )] applies to its argument.
    An array is converted by [join]: the string forms of its items,
    separated by commas, with the empty string for [null] and [undefined].
    An object is converted by the [toString] it inherits, unless a member
    of its own named [toString] hides it: that member is not a function,
    and what is left, [valueOf], does not give a primitive, so the
    conversion fails. *)
Fixpoint json_to_string (v : json) : completion string :=
  match v with
  | JsonScalar v => Returns (to_string v)
  | JsonArray items =>
      strings ←! all_returned
                   (map (λ item,
                           match item with
                           | JsonScalar JUndefined | JsonScalar JNull => Returns ""
                           | _ => json_to_string item
                           end) items);
      Returns (String.concat "," strings)
  | JsonObject members =>
      if bool_decide (is_Some (members !! "toString")) then Throws TypeError
      else Returns "[object Object]"
  end.

Definition parseResponse (resp : response) : parsed :=
  match resp_json resp with
  | Throws e => Rejects e
  | Returns data =>
      if resp_ok resp then Resolves data
      else
        match member data "message" with
        | Throws e => Rejects e
        | Returns message =>
            match json_to_string
                    (or_else message (JsonScalar (JStr "Unknown server error"))) with
            | Throws e => Rejects e
            | Returns text =>
                match member data "code" with
                | Throws e => Rejects e
                | Returns code =>
                    RejectsWith
                      {| err_message := text;
                         err_code := or_else code (JsonScalar (JStr "__unknown"));
                         err_response := resp;
                         err_data := data |}
                end
            end
        end
  end.

(** ** Notions of the further properties *)

(** [isFunction( query ) ? query( state ) : query] *)
Definition resolve_query (query : query_spec) (state : Substate.t) : params :=
  match query with
  | QueryFunction f => f state
  | QueryParams q => q
  end.

(** Every id stored for an archive is the id of a post in [posts]. *)
Definition archives_covered (s : Substate.t) : Prop :=
  ∀ archives key ids id,
    Substate.archives s = Some archives →
    archives !! key = Some ids →
    id ∈ ids →
    id ∈ ids_of (entities (Substate.posts s)).

(** The error action of a thunk. *)
Definition error_action (type : string) (id : jsval) (error : js_error) : Action.t :=
  Action.mk type id None None (Some error).

(** How the [.catch] handler settles the chain under the rethrow flag. *)
Definition after_error (h : Handler.t) (error : js_error) : completion jsval :=
  if Handler.rethrow h then Throws error else Returns JUndefined.

(** The flag an error action resets. *)
Definition clear_flag (k : kind) (s : Substate.t) : Substate.t :=
  match k with
  | ArchiveError => with_loadingArchive (JBool false) s
  | GetError => with_loadingPost (JBool false) s
  | _ => with_saving (JBool false) s
  end.

(** The world after the [.catch] handler of a thunk has run on [error]. *)
Definition failed (k : kind) (type : string) (id : jsval) (error : js_error)
  (w : world) : world :=
  with_store (clear_flag k (store w))
    (add_dispatched (error_action (type_of (actions_of_type type) k) id error)
       (add_console error w)).

(** The store taking a list of actions one after the other, an action on
    which the reducer throws leaving the state as it is. *)
Fixpoint dispatch_all (l : list Action.t) (w : world) : world :=
  match l with
  | [] => w
  | action :: l' => dispatch_all l' (snd (dispatch action w))
  end.

(** The handler of the scenario on a store that holds one cached post. *)
Definition cached_world : world := with_store example_state example_world.

(** * Properties *)

(** ** Strings and the derived action types *)

Lemma chars_app s t : chars (s +:+ t) = chars s ++ chars t.
Proof.
  induction s as [|c s IH]; [done|].
  change (c :: chars (s +:+ t) = c :: (chars s ++ chars t)). by rewrite IH.
Qed.

Lemma chars_inj s t : chars s = chars t → s = t.
Proof.
  intros E. rewrite <- (string_of_list_ascii_of_string s),
    <- (string_of_list_ascii_of_string t). unfold chars in E. by rewrite E.
Qed.

Lemma app_empty_r s : s +:+ "" = s.
Proof. apply chars_inj. rewrite chars_app. apply app_nil_r. Qed.

Lemma app_inj_r s1 s2 t : s1 +:+ t = s2 +:+ t → s1 = s2.
Proof.
  intros E. apply chars_inj. apply (f_equal chars) in E.
  rewrite !chars_app in E. by apply app_inv_tail in E.
Qed.

Lemma action_strings_tags u :
  action_strings (derived_actions u) =
  [ tag "QUERY_" u "_REQUEST"; tag "QUERY_" u ""; tag "QUERY_" u "_ERROR";
    tag "LOAD_" u "_REQUEST"; tag "LOAD_" u ""; tag "LOAD_" u "_ERROR";
    tag "UPDATE_" u "_REQUEST"; tag "UPDATE_" u ""; tag "UPDATE_" u "_ERROR";
    tag "CREATE_" u "_REQUEST"; tag "CREATE_" u ""; tag "CREATE_" u "_ERROR" ].
Proof. unfold action_strings, derived_actions, tag. cbn. by rewrite app_empty_r. Qed.

Lemma action_strings_shape u x :
  x ∈ action_strings (derived_actions u) →
  ∃ v s, v ∈ verbs ∧ s ∈ suffixes ∧ x = tag v u s.
Proof.
  rewrite action_strings_tags. unfold verbs, suffixes. intros H.
  repeat (apply elem_of_cons in H as [->|H];
          [eexists _, _; split_and!; [| |reflexivity]; set_solver|]).
  by apply elem_of_nil in H.
Qed.

(** The verb of a tag is determined by the tag. *)
Lemma verb_inj v1 v2 r1 r2 :
  v1 ∈ verbs → v2 ∈ verbs → v1 +:+ r1 = v2 +:+ r2 → v1 = v2 ∧ r1 = r2.
Proof.
  unfold verbs. intros H1 H2 E.
  repeat (apply elem_of_cons in H1 as [->|H1]); [..|by apply elem_of_nil in H1];
  (repeat (apply elem_of_cons in H2 as [->|H2]); [..|by apply elem_of_nil in H2]);
  first [ by split; [|apply (inj _) in E]
        | apply (f_equal chars) in E; rewrite !chars_app in E; discriminate E ].
Qed.

(** Two tags with the same verb: the suffixes and the names agree, or the
    one without suffix has for name the name of the other followed by its
    suffix. *)
Lemma suffix_cases u1 u2 s1 s2 :
  s1 ∈ suffixes → s2 ∈ suffixes → u1 +:+ s1 = u2 +:+ s2 →
  (s1 = s2 ∧ u1 = u2)
  ∨ (s1 = "" ∧ s2 ≠ "" ∧ u1 = u2 +:+ s2)
  ∨ (s2 = "" ∧ s1 ≠ "" ∧ u2 = u1 +:+ s1).
Proof.
  unfold suffixes. intros H1 H2 E.
  repeat (apply elem_of_cons in H1 as [->|H1]); [..|by apply elem_of_nil in H1];
  (repeat (apply elem_of_cons in H2 as [->|H2]); [..|by apply elem_of_nil in H2]);
  first
    [ left; split; [done|by apply app_inj_r in E]
    | rewrite app_empty_r in E;
      first [ right; left; by split_and! | right; right; by split_and! ]
    | apply (f_equal chars) in E; rewrite !chars_app in E; cbn in E;
      apply (f_equal (@rev ascii)) in E; rewrite !rev_app_distr in E;
      discriminate E ].
Qed.

(** Tags over separate names differ, whatever the verbs and suffixes. *)
Lemma separate_tags u1 u2 v1 v2 s1 s2 :
  separate u1 u2 →
  v1 ∈ verbs → v2 ∈ verbs → s1 ∈ suffixes → s2 ∈ suffixes →
  tag v1 u1 s1 ≠ tag v2 u2 s2.
Proof.
  intros (Hne & Hr1 & He1 & Hr2 & He2) Hv1 Hv2 Hs1 Hs2 E.
  unfold tag in E. apply verb_inj in E as [_ E]; [|done..].
  apply suffix_cases in E as [[_ Hu]|[(-> & Hn & Hu)|(-> & Hn & Hu)]];
    [done| | |done..].
  - unfold suffixes in Hs2.
    repeat (apply elem_of_cons in Hs2 as [->|Hs2]; [done|]).
    by apply elem_of_nil in Hs2.
  - unfold suffixes in Hs1.
    repeat (apply elem_of_cons in Hs1 as [->|Hs1]; [done|]).
    by apply elem_of_nil in Hs1.
Qed.

Lemma type_of_tag u k :
  type_of (derived_actions u) k = tag (kind_verb k) u (kind_suffix k).
Proof. destruct k; unfold tag; cbn; by rewrite ?app_empty_r. Qed.

Lemma kind_verb_elem k : kind_verb k ∈ verbs.
Proof. destruct k; unfold verbs; cbn; set_solver. Qed.

Lemma kind_suffix_elem k : kind_suffix k ∈ suffixes.
Proof. destruct k; unfold suffixes; cbn; set_solver. Qed.

(** Within one table the twelve types are pairwise distinct. *)
Lemma type_of_inj u k1 k2 :
  type_of (derived_actions u) k1 = type_of (derived_actions u) k2 → k1 = k2.
Proof.
  rewrite !type_of_tag. unfold tag. intros E.
  apply verb_inj in E as [Ev E]; auto using kind_verb_elem.
  apply (inj _) in E.
  destruct k1, k2; cbn in Ev, E; first [reflexivity | discriminate].
Qed.

Lemma type_eqb u k1 k2 :
  String.eqb (type_of (derived_actions u) k1) (type_of (derived_actions u) k2)
  = bool_decide (k1 = k2).
Proof.
  case_bool_decide as H.
  - subst. apply String.eqb_refl.
  - apply String.eqb_neq. intros E. by apply type_of_inj in E.
Qed.

Lemma reducer_transition type k state action :
  Action.type action = type_of (actions_of_type type) k →
  reducer (actions_of_type type) state action
  = transition k (default DEFAULT_STATE state) action.
Proof.
  intros E. unfold reducer, actions_of_type in *. rewrite E.
  change (archiveStart ?a) with (type_of a ArchiveStart).
  change (archiveSuccess ?a) with (type_of a ArchiveSuccess).
  change (archiveError ?a) with (type_of a ArchiveError).
  change (getStart ?a) with (type_of a GetStart).
  change (getSuccess ?a) with (type_of a GetSuccess).
  change (getError ?a) with (type_of a GetError).
  change (updateStart ?a) with (type_of a UpdateStart).
  change (updateSuccess ?a) with (type_of a UpdateSuccess).
  change (updateError ?a) with (type_of a UpdateError).
  change (createStart ?a) with (type_of a CreateStart).
  change (createSuccess ?a) with (type_of a CreateSuccess).
  change (createError ?a) with (type_of a CreateError).
  rewrite !type_eqb. by destruct k.
Qed.

(** An action of no known type leaves the state as it is. *)
Lemma reducer_unknown actions state action :
  (∀ k, Action.type action ≠ type_of actions k) →
  reducer actions state action = Returns (default DEFAULT_STATE state).
Proof.
  intros H. unfold reducer.
  repeat match goal with
  | |- context [String.eqb (Action.type action) (?f actions)] =>
      let E := fresh in
      destruct (String.eqb_spec (Action.type action) (f actions))
        as [E|_]; [exfalso|]
  end;
  first [ done
        | by eapply (H ArchiveStart) | by eapply (H ArchiveSuccess)
        | by eapply (H ArchiveError) | by eapply (H GetStart)
        | by eapply (H GetSuccess) | by eapply (H GetError)
        | by eapply (H UpdateStart) | by eapply (H UpdateSuccess)
        | by eapply (H UpdateError) | by eapply (H CreateStart)
        | by eapply (H CreateSuccess) | by eapply (H CreateError) ].
Qed.

Lemma reducer_other type state action :
  (∀ k, Action.type action ≠ type_of (actions_of_type type) k) →
  reducer (actions_of_type type) state action
  = Returns (default DEFAULT_STATE state).
Proof. apply reducer_unknown. Qed.

(** ** Arrays of ids *)

Lemma strict_eq_true a b : strict_eq a b = true ↔ a = b.
Proof. unfold strict_eq. apply bool_decide_eq_true. Qed.

Lemma indexOf_from_spec l v i :
  0 <= i →
  (indexOf_from l v i = -1 ∧ v ∉ l) ∨ (i <= indexOf_from l v i ∧ v ∈ l).
Proof.
  revert i. induction l as [|x l IH]; intros i Hi; cbn.
  - left. split; [done|]. apply not_elem_of_nil.
  - unfold strict_eq. case_bool_decide as Hx.
    + subst. right. split; [lia|]. apply list_elem_of_here.
    + destruct (IH (i + 1)) as [[-> Hn]|[Hle Hin]]; [lia|..].
      * left. split; [done|]. by apply not_elem_of_cons.
      * right. split; [lia|]. by apply list_elem_of_further.
Qed.

Lemma indexOf_absent l v : (indexOf l v =? -1) = bool_decide (v ∉ l).
Proof.
  unfold indexOf. destruct (indexOf_from_spec l v 0) as [[-> Hn]|[Hle Hin]]; [lia|..].
  - by rewrite bool_decide_eq_true_2.
  - rewrite bool_decide_eq_false_2 by auto. lia.
Qed.

Lemma indexOf_present l v : (indexOf l v >=? 0) = bool_decide (v ∈ l).
Proof.
  unfold indexOf. destruct (indexOf_from_spec l v 0) as [[-> Hn]|[Hle Hin]]; [lia|..].
  - by rewrite bool_decide_eq_false_2.
  - rewrite bool_decide_eq_true_2 by auto. lia.
Qed.

(** ** The archiveSuccess transition *)

(** On a substate whose [posts] is an array, or absent, the transition is
    the one of the table: the flag drops, the archive gets the ids of the
    results, and the results replace the cached posts of the same ids. *)
Lemma reducer_archiveSuccess type state action results :
  Action.type action = archiveSuccess (actions_of_type type) →
  Action.results action = Some results →
  posts_usable (Substate.posts state) = true →
  ∃ state',
    reducer (actions_of_type type) (Some state) action = Returns state'
    ∧ Substate.loadingArchive state' = JBool false
    ∧ (∃ archives, Substate.archives state' = Some archives
         ∧ archives !! to_string (Action.id action) = Some (ids_of results))
    ∧ Substate.posts state'
      = PostsArray
          (List.filter (λ post, bool_decide (prop post "id" ∉ ids_of results))
             (entities (Substate.posts state)) ++ results).
Proof.
  intros Ht Hr Hp. rewrite (reducer_transition type ArchiveSuccess) by done.
  cbn. rewrite Hr. cbn.
  assert (∀ l, List.filter
                 (λ post, indexOf (map (λ post0, prop post0 "id") results)
                            (prop post "id") =? -1) l
               = List.filter (λ post, bool_decide (prop post "id" ∉ ids_of results)) l)
    as Hf.
  { intros l. apply List.filter_ext. intros post. apply indexOf_absent. }
  destruct (Substate.posts state) as [| |l|] eqn:Hposts; [|done| |done]; cbn;
    eexists; (split; [reflexivity|]); cbn; rewrite ?Hf;
    (split_and!; [done| |done]);
    eexists; (split; [reflexivity|]); unfold spread_archives;
    apply lookup_insert_eq.
Qed.

(** C1 (the code departs from the claim on the default substate).
    [DEFAULT_STATE] holds [posts: {}], a plain object; on it, and on the
    substate the archiveStart transition makes of it, the archiveSuccess
    branch of the reducer calls [filter] on that object and throws a
    TypeError instead of returning a substate, for every resource type,
    archive key and result list. *)
Theorem archiveSuccess_on_default_state_throws
  (type : string) (id : jsval) (results : list entity) :
  let actions := actions_of_type type in
  let success := Action.mk (archiveSuccess actions) id None (Some results) None in
  reducer actions None success = Throws TypeError
  ∧ ∃ started,
      reducer actions None (plain (archiveStart actions) id) = Returns started
      ∧ Substate.loadingArchive started = id
      ∧ reducer actions (Some started) success = Throws TypeError.
Proof.
  cbn zeta. split.
  - by rewrite (reducer_transition type ArchiveSuccess).
  - eexists. rewrite (reducer_transition type ArchiveStart) by done.
    split; [reflexivity|]. split; [done|].
    by rewrite (reducer_transition type ArchiveSuccess).
Qed.

(** ** isPostLoading *)

(** C2 (the code departs from the claim). The reducer records the id being
    fetched in [loadingPost]; [isPostLoading] compares its argument with
    [loadingSingle], which nothing sets: after getStart for post 5 on the
    default substate, [loadingPost] is 5 and [isPostLoading( substate, 5 )]
    is false. *)
Theorem isPostLoading_ignores_loadingPost (type : string) :
  ∃ substate,
    reducer (actions_of_type type) None
      (plain (getStart (actions_of_type type)) (JNum 5)) = Returns substate
    ∧ Substate.loadingPost substate = JNum 5
    ∧ isPostLoading substate (JNum 5) = false.
Proof.
  eexists. rewrite (reducer_transition type GetStart) by done.
  split; [reflexivity|]. by split.
Qed.

(** What [isPostLoading] computes, on every substate. *)
Lemma isPostLoading_spec substate id :
  isPostLoading substate id = true ↔ Substate.loadingSingle substate = id.
Proof. apply strict_eq_true. Qed.

(** ** isPostCreating *)

Lemma str_indexOf_prefix s pat :
  pat ≠ "" → (str_indexOf s pat =? 0) = String.prefix pat s.
Proof.
  intros Hpat. unfold str_indexOf. destruct s as [|c s]; cbn.
  - by destruct pat.
  - destruct pat as [|p pat]; [done|]. cbn.
    destruct (ascii_dec p c); [destruct (String.prefix pat s)|]; try done;
      by destruct (String.index 0 (String p pat) s).
Qed.

(** On a string, the test is the prefix test. *)
Lemma isPostCreating_string substate s :
  Substate.saving substate = JStr s →
  isPostCreating substate = Returns (String.prefix "_tmp_" s).
Proof.
  intros E. unfold isPostCreating. rewrite E. f_equal.
  by apply str_indexOf_prefix.
Qed.

(** C3 (the code departs from the claim). Where [saving] is [false], as in
    the default substate and after createError, and where it is a numeric
    id set by updateStart, [isPostCreating] does not return [false]:
    [indexOf] is not a method of a boolean or a number and the call throws
    a TypeError. *)
Theorem isPostCreating_throws_unless_string
  (type : string) (state : Substate.t) (id : jsval) (n : Z) :
  let actions := actions_of_type type in
  isPostCreating DEFAULT_STATE = Throws TypeError
  ∧ (∃ failed,
       reducer actions (Some state) (plain (createError actions) id) = Returns failed
       ∧ Substate.saving failed = JBool false
       ∧ isPostCreating failed = Throws TypeError)
  ∧ (∃ updating,
       reducer actions (Some state) (plain (updateStart actions) (JNum n))
       = Returns updating
       ∧ Substate.saving updating = JNum n
       ∧ isPostCreating updating = Throws TypeError).
Proof.
  cbn zeta. split_and!; [done| |].
  - eexists. rewrite (reducer_transition type CreateError) by done.
    split; [reflexivity|]. by split.
  - eexists. rewrite (reducer_transition type UpdateStart) by done.
    split; [reflexivity|]. by split.
Qed.

(** ** getSingle *)

(** C10. On the default substate, whose [posts] is the plain object [{}],
    the guard [! substate.posts] lets the call through and [find], which an
    object does not have, is applied: [getSingle] throws a TypeError for
    every id, and so does it on the substate the reducer starts from when
    it is handed no state and an action of no known type. *)
Theorem getSingle_default_state_throws (id : jsval) :
  getSingle DEFAULT_STATE id = Throws TypeError
  ∧ ∀ type action,
      (∀ k, Action.type action ≠ type_of (actions_of_type type) k) →
      ∃ initial,
        reducer (actions_of_type type) None action = Returns initial
        ∧ getSingle initial id = Throws TypeError.
Proof.
  split; [done|]. intros type action H. eexists.
  rewrite reducer_other by done. by split.
Qed.

(** ** One entry per id *)

Lemma ids_of_app l k : ids_of (l ++ k) = ids_of l ++ ids_of k.
Proof. apply map_app. Qed.

Lemma elem_of_ids_filter f l x :
  x ∈ ids_of (List.filter f l) → x ∈ ids_of l.
Proof.
  induction l as [|e l IH]; cbn; [done|].
  destruct (f e); cbn; rewrite !elem_of_cons; [intros [->|H]|intros H]; auto.
Qed.

Lemma unique_ids_filter f l : unique_ids l → unique_ids (List.filter f l).
Proof.
  unfold unique_ids. induction l as [|e l IH]; cbn; [done|].
  rewrite NoDup_cons. intros [Hn Hl]. destruct (f e); cbn; auto.
  apply NoDup_cons. split; auto. intros Hin. by apply elem_of_ids_filter in Hin.
Qed.

Lemma filter_filter_same {A} (f : A → bool) l :
  List.filter f (List.filter f l) = List.filter f l.
Proof.
  induction l as [|x l IH]; cbn; [done|].
  destruct (f x) eqn:E; cbn; rewrite ?E, IH; done.
Qed.

Lemma filter_none {A} (f : A → bool) l :
  (∀ x, x ∈ l → f x = false) → List.filter f l = [].
Proof.
  induction l as [|x l IH]; cbn; [done|]. intros H.
  rewrite (H x (list_elem_of_here x l)). apply IH. intros y Hy.
  apply H. by apply list_elem_of_further.
Qed.

Lemma elem_of_ids_of e l : e ∈ l → prop e "id" ∈ ids_of l.
Proof. intros H. unfold ids_of. by apply (list_elem_of_fmap_2 (λ post, prop post "id")). Qed.

Lemma merge_results_unique l results :
  unique_ids l → unique_ids results → unique_ids (merge_results l results).
Proof.
  intros Hl Hr. unfold unique_ids, merge_results. rewrite ids_of_app.
  apply NoDup_app. split_and!; [by apply unique_ids_filter| |done].
  intros x Hx Hin. unfold ids_of in Hx.
  apply list_elem_of_fmap in Hx as (e & -> & He).
  apply list_elem_of_In, List.filter_In in He as [_ He].
  rewrite indexOf_absent in He. by apply bool_decide_eq_true in He.
Qed.

Lemma replace_post_unique l data :
  unique_ids l → unique_ids (replace_post l data).
Proof.
  intros Hl. unfold unique_ids, replace_post. rewrite ids_of_app.
  apply NoDup_app. split_and!; [by apply unique_ids_filter| |apply NoDup_singleton].
  intros x Hx Hin. apply list_elem_of_singleton in Hin. subst.
  unfold ids_of in Hx. apply list_elem_of_fmap in Hx as (e & Heq & He).
  apply list_elem_of_In, List.filter_In in He as [_ He].
  apply negb_true_iff in He. rewrite Heq in He.
  unfold strict_eq in He. by rewrite bool_decide_eq_true_2 in He.
Qed.

Lemma merge_results_twice l results :
  merge_results (merge_results l results) results = merge_results l results.
Proof.
  unfold merge_results. rewrite List.filter_app, filter_filter_same.
  rewrite (filter_none _ results); [by rewrite app_nil_r|].
  intros e He. rewrite indexOf_absent. apply bool_decide_eq_false_2.
  intros Hn. apply Hn. by apply elem_of_ids_of.
Qed.

Lemma replace_post_twice l data :
  replace_post (replace_post l data) data = replace_post l data.
Proof.
  unfold replace_post. rewrite List.filter_app, filter_filter_same. cbn.
  assert (strict_eq (prop data "id") (prop data "id") = true) as ->
    by by apply strict_eq_true.
  cbn. by rewrite app_nil_r.
Qed.

Lemma type_cases (actions : action_types) (type : string) :
  (∃ k, type = type_of actions k) ∨ (∀ k, type ≠ type_of actions k).
Proof.
  destruct (decide (Exists (λ k, type = type_of actions k) all_kinds)) as [H|H].
  - left. apply Exists_exists in H as (k & _ & Hk). eauto.
  - right. intros k Hk. apply H, Exists_exists. exists k.
    split; [|done]. destruct k; unfold all_kinds; set_solver.
Qed.

(** A transition on usable [posts] whose action has its payload returns,
    and this is what it does to [posts]. *)
Lemma transition_usable k state action :
  posts_usable (Substate.posts state) = true →
  (k = ArchiveSuccess → is_Some (Action.results action)) →
  (k ∈ [GetSuccess; CreateSuccess; UpdateSuccess] → is_Some (Action.data action)) →
  ∃ state',
    transition k state action = Returns state'
    ∧ match k with
      | ArchiveSuccess =>
          ∃ results, Action.results action = Some results
            ∧ Substate.posts state'
              = PostsArray (merge_results (entities (Substate.posts state)) results)
      | GetSuccess | CreateSuccess | UpdateSuccess =>
          ∃ data, Action.data action = Some data
            ∧ Substate.posts state'
              = PostsArray (replace_post (entities (Substate.posts state)) data)
      | _ => Substate.posts state' = Substate.posts state
      end.
Proof.
  intros Hp Hr Hd.
  destruct k; cbn; unfold put_post; eauto;
    try (destruct Hr as [results ->]; [done|]);
    try (destruct Hd as [data ->]; [set_solver|]);
    cbn; destruct (Substate.posts state); try done; cbn; eauto.
Qed.

Lemma payload_of_kind type k action :
  Action.type action = type_of (actions_of_type type) k →
  carries_payload (actions_of_type type) action →
  (k = ArchiveSuccess → is_Some (Action.results action))
  ∧ (k ∈ [GetSuccess; CreateSuccess; UpdateSuccess] → is_Some (Action.data action)).
Proof.
  intros Hk [Hr Hd]. split.
  - intros ->. by apply Hr.
  - intros Hin. apply Hd. rewrite Hk.
    repeat (apply elem_of_cons in Hin as [->|Hin]); [set_solver..|].
    by apply elem_of_nil in Hin.
Qed.

Lemma reducer_step_unique type state action :
  posts_usable (Substate.posts state) = true →
  unique_ids (entities (Substate.posts state)) →
  carries_payload (actions_of_type type) action →
  distinct_results (actions_of_type type) action →
  ∃ state',
    reducer (actions_of_type type) (Some state) action = Returns state'
    ∧ posts_usable (Substate.posts state') = true
    ∧ unique_ids (entities (Substate.posts state')).
Proof.
  intros Hp Hu Hpay Hdis.
  destruct (type_cases (actions_of_type type) (Action.type action)) as [[k Hk]|Hn].
  - rewrite (reducer_transition type k) by done. cbn [default].
    destruct (payload_of_kind type k action Hk Hpay) as [Hr Hd].
    destruct (transition_usable k state action Hp Hr Hd) as (state' & Hret & Hs).
    exists state'. split; [done|].
    destruct k; try (rewrite Hs; by split);
      destruct Hs as (x & Hx & ->); (split; [done|]); cbn.
    + apply merge_results_unique; [done|]. by apply Hdis.
    + by apply replace_post_unique.
    + by apply replace_post_unique.
    + by apply replace_post_unique.
  - rewrite reducer_other by done. eauto.
Qed.

Lemma getArchive_unique state key found :
  unique_ids (entities (Substate.posts state)) →
  getArchive state key = Returns (Some found) → unique_ids found.
Proof.
  intros Hu. unfold getArchive.
  destruct (Substate.archives state) as [archives|]; [|done].
  destruct (Substate.posts state) as [| |l|]; [done| | |].
  - destruct (archives !! to_string key); [done|]. by case_bool_decide.
  - destruct (archives !! to_string key) as [ids|].
    + intros [= <-]. by apply unique_ids_filter.
    + case_bool_decide; [|done]. destruct l; [|done]. by intros [= <-].
  - destruct (archives !! to_string key); [done|]. by case_bool_decide.
Qed.

(** C6 (as amended). On a substate whose [posts] is an array, or absent, with
    at most one entry per id, every run of actions that carry their payload
    and whose archive result lists have no id twice goes through the
    reducer without an error and ends in a substate whose [posts] has at
    most one entry per id, and whenever [getArchive] on it returns a list,
    for whatever key, the posts of that list have pairwise distinct ids. A
    single transition is the run of one action. *)
Theorem reducer_preserves_unique_ids
  (type : string) (state : Substate.t) (run : list Action.t) :
  posts_usable (Substate.posts state) = true →
  unique_ids (entities (Substate.posts state)) →
  Forall (carries_payload (actions_of_type type)) run →
  Forall (distinct_results (actions_of_type type)) run →
  ∃ final,
    reduce_all (actions_of_type type) state run = Returns final
    ∧ posts_usable (Substate.posts final) = true
    ∧ unique_ids (entities (Substate.posts final))
    ∧ ∀ key found, getArchive final key = Returns (Some found) → unique_ids found.
Proof.
  revert state. induction run as [|action run IH]; intros state Hp Hu Hpay Hdis.
  - exists state. split_and!; try done.
    intros key found. by apply getArchive_unique.
  - apply Forall_cons in Hpay as [Hpay1 Hpay]. apply Forall_cons in Hdis as [Hdis1 Hdis].
    destruct (reducer_step_unique type state action Hp Hu Hpay1 Hdis1)
      as (state' & Hs & Hp' & Hu').
    destruct (IH state' Hp' Hu' Hpay Hdis) as (final & Hf & Hrest).
    exists final. split; [|done]. cbn. rewrite Hs. done.
Qed.

(** C7. On a substate whose [posts] is an array of entities, the reducer
    applied twice with the same success action (archiveSuccess,
    getSuccess, createSuccess or updateSuccess, carrying its payload)
    returns both times, and the second application leaves [posts] as the
    first made it. *)
Theorem success_replay_idempotent
  (type : string) (state : Substate.t) (action : Action.t) (l : list entity) :
  let actions := actions_of_type type in
  Substate.posts state = PostsArray l →
  Action.type action ∈ [archiveSuccess actions; getSuccess actions;
                         createSuccess actions; updateSuccess actions] →
  carries_payload actions action →
  ∃ once twice,
    reducer actions (Some state) action = Returns once
    ∧ reducer actions (Some once) action = Returns twice
    ∧ Substate.posts twice = Substate.posts once.
Proof.
  intros actions Hl Hty Hpay.
  assert (∃ k, Action.type action = type_of actions k
               ∧ k ∈ [ArchiveSuccess; GetSuccess; CreateSuccess; UpdateSuccess])
    as (k & Hk & Hin).
  { repeat (apply elem_of_cons in Hty as [Hty|Hty]);
      [ exists ArchiveSuccess | exists GetSuccess | exists CreateSuccess
      | exists UpdateSuccess | by apply elem_of_nil in Hty ];
      (split; [done|set_solver]). }
  subst actions.
  destruct (payload_of_kind type k action Hk Hpay) as [Hr Hd].
  assert (posts_usable (Substate.posts state) = true) as Hp by by rewrite Hl.
  destruct (transition_usable k state action Hp Hr Hd) as (once & Hret1 & Hone).
  assert (posts_usable (Substate.posts once) = true) as Hp1.
  { destruct k; try (by rewrite Hone); by destruct Hone as (x & _ & ->). }
  destruct (transition_usable k once action Hp1 Hr Hd) as (twice & Hret2 & Htwo).
  exists once, twice. rewrite !(reducer_transition type k) by done.
  split_and!; [done..|].
  repeat (apply elem_of_cons in Hin as [->|Hin]); [..|by apply elem_of_nil in Hin];
    destruct Hone as (x & Hx & Hone), Htwo as (y & Hy & Htwo);
    rewrite Hx in Hy; injection Hy as <-;
    rewrite Htwo, Hone; cbn [entities]; f_equal;
    first [apply merge_results_twice | apply replace_post_twice].
Qed.

(** ** The thunks *)

(** A registered key finds its query, whatever the object inherits. *)
Lemma archives_entry_registered h id query :
  Handler.archives h !! to_string id = Some query →
  archives_entry h id = Some (Registered query).
Proof. intros H. unfold archives_entry. by rewrite H. Qed.

(** A key finds nothing exactly when it is neither registered nor the name
    of an inherited property. *)
Lemma archives_entry_None h id :
  archives_entry h id = None
  ↔ Handler.archives h !! to_string id = None
    ∧ to_string id ∉ object_prototype_names.
Proof.
  unfold archives_entry.
  destruct (Handler.archives h !! to_string id) as [query|].
  - split; [done|by intros [? _]].
  - case_bool_decide; split; try done. by intros [_ ?].
Qed.

(** The reducer throws nothing but a TypeError. *)
Lemma reducer_throws_TypeError actions state action e :
  reducer actions state action = Throws e → e = TypeError.
Proof.
  unfold reducer, replace_existing, bind, defined, posts_or_empty_filter.
  intros H. repeat (case_match; simplify_eq); done.
Qed.

Lemma dispatch_transition type k a w :
  Handler.actions (handler w) = actions_of_type type →
  Action.type a = type_of (actions_of_type type) k →
  dispatch a w
  = match transition k (store w) a with
    | Returns s => (Returns (), with_store s (add_dispatched a w))
    | Throws e => (Throws e, add_dispatched a w)
    end.
Proof.
  intros Ha Hk. unfold dispatch. rewrite Ha.
  by rewrite (reducer_transition type k).
Qed.

(** C4 (the code departs from the claim). For a registered key the thunk
    of [fetchArchive] dispatches archiveStart, issues the request and sets
    up the chain that, on success, dispatches archiveSuccess with the key
    and the results and resolves with the key; but it has no [return]: what
    the caller gets is [undefined], not that promise. *)
Theorem fetchArchive_returns_undefined
  (type : string) (w : world) (id : jsval) (query : query_spec) :
  Handler.actions (handler w) = actions_of_type type →
  Handler.archives (handler w) !! to_string id = Some query →
  ∃ r w',
    fetchArchive id w = (Returns r, w')
    ∧ returned r = None
    ∧ dispatched w' = dispatched w ++ [plain (archiveStart (actions_of_type type)) id]
    ∧ ∀ results,
        posts_usable (Substate.posts (store w')) = true →
        ∃ w'',
          pending r (Returns results) w' = (Returns id, w'')
          ∧ dispatched w''
            = dispatched w'
              ++ [Action.mk (archiveSuccess (actions_of_type type)) id None
                    (Some results) None].
Proof.
  intros Ha Hq. unfold fetchArchive, seq, this.
  rewrite (archives_entry_registered _ _ _ Hq), Ha.
  rewrite (dispatch_transition type ArchiveStart) by done. cbn.
  destruct query as [q|f]; cbn;
    (eexists _, _; split; [reflexivity|]; cbn; split_and!; [done..|]);
    intros results Hp; unfold catch_, then_, seq, this; cbn; rewrite Ha;
    rewrite (dispatch_transition type ArchiveSuccess) by done; cbn;
    destruct (Substate.posts (store w)); try done; cbn; eexists; by split.
Qed.

(** The sibling thunks hand their chain to the caller. *)
Lemma fetchSingle_returns_promise type w id context :
  Handler.actions (handler w) = actions_of_type type →
  ∃ r w', fetchSingle id context w = (Returns r, w')
          ∧ returned r = Some (pending r).
Proof.
  intros Ha. unfold fetchSingle, seq, this. rewrite Ha.
  rewrite (dispatch_transition type GetStart) by done. cbn.
  eexists _, _. by split.
Qed.

(** ** Configuration errors *)

(** Once [id in this.archives] holds, the thunk of [fetchArchive] throws no
    [Error]: what can still fail is a conversion or a call, with a
    TypeError. *)
Lemma fetchArchive_found id w entry message :
  archives_entry (handler w) id = Some entry →
  fst (fetchArchive id w) ≠ Throws (Error message).
Proof.
  intros He. unfold fetchArchive, seq, this. rewrite He. unfold dispatch. cbn.
  destruct (reducer _ _ _) as [s|e] eqn:Hr; cbn.
  - destruct entry as [[q|f]|name]; cbn; try done.
    assert (inherited_query name s ≠ Throws (Error message)) as Hq.
    { unfold inherited_query. by repeat case_match. }
    destruct (inherited_query name s) as [a|e]; cbn; [done|].
    intros [= ->]. by apply Hq.
  - apply reducer_throws_TypeError in Hr. by subst.
Qed.

Lemma fetchArchive_invalid id w :
  fst (fetchArchive id w) = Throws (invalid_archive id)
  ↔ Handler.archives (handler w) !! to_string id = None ∧ own_name id.
Proof.
  rewrite <- archives_entry_None. split.
  - destruct (archives_entry (handler w) id) as [entry|] eqn:He; [|done].
    intros H. by apply (fetchArchive_found _ _ _ _ He) in H.
  - intros He. unfold fetchArchive, seq, this. by rewrite He.
Qed.


(** ** Optimistic ids *)

Lemma temp_id_inj m n : temp_id m = temp_id n → m = n.
Proof.
  unfold temp_id. intros [= E]. apply (inj _) in E. by apply (inj pretty) in E.
Qed.

Lemma is_temp_id_temp_id n : is_temp_id (temp_id n) = true.
Proof.
  unfold temp_id, is_temp_id.
  change ("_tmp_" +:+ pretty n)
    with (String "_" (String "t" (String "m" (String "p" (String "_" (pretty n)))))).
  cbn. repeat (destruct (ascii_dec _ _); [|done]). by destruct (pretty n).
Qed.

Lemma counters_lower t k n : n ∈ counters t k → (t <= n)%N.
Proof.
  revert t. induction k as [|k IH]; intros t; cbn.
  - by intros ?%elem_of_nil.
  - intros [->|Hn]%elem_of_cons; [lia|]. apply IH in Hn. lia.
Qed.

Lemma counters_sorted t k : StronglySorted N.lt (counters t k).
Proof.
  revert t. induction k as [|k IH]; intros t; cbn; constructor; [apply IH|].
  apply Forall_forall. intros n Hn. apply counters_lower in Hn. lia.
Qed.

Lemma counters_temp_ids_NoDup t k : NoDup (temp_id <$> counters t k).
Proof.
  apply NoDup_fmap_2_strong.
  - intros m n _ _. apply temp_id_inj.
  - revert t. induction k as [|k IH]; intros t; cbn; constructor; [|apply IH].
    intros Hn. apply counters_lower in Hn. lia.
Qed.

#[local] Arguments on_error : simpl never.

Lemma on_error_create type id error w :
  Handler.actions (handler w) = actions_of_type type →
  ∃ c,
    on_error createError id error w
    = (c, with_store (with_saving (JBool false) (store w))
            (add_dispatched
               (Action.mk (createError (actions_of_type type)) id None None (Some error))
               (add_console error w))).
Proof.
  intros Ha. unfold on_error, seq, console_log, this. cbn. rewrite Ha.
  rewrite (dispatch_transition type CreateError) by done. cbn.
  destruct (Handler.rethrow (handler w)); eexists; reflexivity.
Qed.

Lemma elem_of_replace_post e l data :
  e ∈ replace_post l data → e ∈ l ∨ e = data.
Proof.
  unfold replace_post. rewrite elem_of_app, list_elem_of_singleton.
  intros [He|He]; [left|by right].
  by apply list_elem_of_In, List.filter_In in He as [He%list_elem_of_In _].
Qed.

Lemma createSingle_run type w data :
  Handler.actions (handler w) = actions_of_type type →
  ∃ r w',
    createSingle data w = (Returns r, w')
    ∧ returned r = Some (pending r)
    ∧ handler w' = next_tempId (handler w)
    ∧ store w' = with_saving (temp_id (Handler.tempId (handler w))) (store w)
    ∧ dispatched w'
      = dispatched w ++ [create_start type (Handler.tempId (handler w)) data]
    ∧ settles_without_temp type r.
Proof.
  intros Ha. unfold createSingle, seq, tempId_postincrement, this. cbn.
  rewrite Ha. rewrite (dispatch_transition type CreateStart) by done. cbn.
  eexists _, _. split; [reflexivity|]. cbn. split_and!; [done..|].
  intros outcome w2 Ha2. cbn zeta. unfold catch_, then_, seq, this.
  destruct outcome as [data'|err]; cbn.
  - rewrite Ha2. rewrite (dispatch_transition type CreateSuccess) by done. cbn.
    unfold put_post. cbn.
    destruct (Substate.posts (store w2)) as [| |l|] eqn:Hp; cbn.
    + split_and!; [done..| |].
      * intros e He. right. f_equal.
        apply list_elem_of_singleton in He. by subst.
      * intros d [= <-] _ Hd e He.
        apply list_elem_of_singleton in He. by subst.
    + match goal with
      | |- context [on_error createError ?i ?e ?w0] =>
          destruct (on_error_create type i e w0) as [c ->]; [done|]
      end.
      cbn. rewrite Hp. cbn. split_and!; [done..| |].
      * by intros e ?%elem_of_nil.
      * by intros d _ _ _ e ?%elem_of_nil.
    + split_and!; [done..| |].
      * intros e He. change (e ∈ replace_post l data') in He.
        apply elem_of_replace_post in He as [He| ->]; auto.
      * intros d [= <-] Hn Hd e He. change (e ∈ replace_post l data') in He.
        apply elem_of_replace_post in He as [He| ->]; [|done].
        by apply Hn.
    + match goal with
      | |- context [on_error createError ?i ?e ?w0] =>
          destruct (on_error_create type i e w0) as [c ->]; [done|]
      end.
      cbn. rewrite Hp. cbn. split_and!; [done..| |].
      * by intros e ?%elem_of_nil.
      * by intros d _ _ _ e ?%elem_of_nil.
  - match goal with
    | |- context [on_error createError ?i ?e ?w0] =>
        destruct (on_error_create type i e w0) as [c ->]; [done|]
    end.
    cbn. split_and!; [done..| |].
    + intros e He. by left.
    + by intros d [=].
Qed.

(** C8. From a handler whose counter stands at [t], successive calls of the
    thunk of [createSingle] all return; the counter ends at [t] plus their
    number; the createStart actions they dispatch carry, in order, the temp
    prefix applied to the counter values [t], [t + 1], ..., which are
    strictly increasing, so that no temp id comes twice; [posts] is not
    touched, and once a create has been started [isPostCreating] is true.
    When the request of any of them settles, however the calls overlap,
    the counter stays, [saving] becomes [false], and [posts] gains nothing
    but the entity the server returned: with a server-assigned id that is
    not a temp id, no entity with a temp id is in [posts]. *)
Theorem createSingle_temp_ids (type : string) (w : world) (l : list entity) :
  Handler.actions (handler w) = actions_of_type type →
  let t := Handler.tempId (handler w) in
  ∃ rs w',
    create_all l w = (Returns rs, w')
    ∧ Handler.tempId (handler w') = (t + N.of_nat (length l))%N
    ∧ dispatched w'
      = dispatched w ++ zip_with (create_start type) (counters t (length l)) l
    ∧ StronglySorted N.lt (counters t (length l))
    ∧ NoDup (temp_id <$> counters t (length l))
    ∧ Substate.posts (store w') = Substate.posts (store w)
    ∧ (l ≠ [] → isPostCreating (store w') = Returns true)
    ∧ Forall (settles_without_temp type) rs.
Proof.
  intros Ha t. subst t. revert w Ha.
  induction l as [|data l IH]; intros w Ha.
  - exists [], w. cbn. rewrite N.add_0_r, app_nil_r.
    split_and!; try done; constructor.
  - destruct (createSingle_run type w data Ha)
      as (r & w1 & Hrun & _ & Hh & Hs & Hd & Hsettle).
    assert (Handler.actions (handler w1) = actions_of_type type) as Ha1
      by by rewrite Hh.
    destruct (IH w1 Ha1) as (rs & w' & Hall & Ht & Hd' & _ & _ & Hp & Hc & Hrs).
    exists (r :: rs), w'. cbn [create_all]. unfold seq at 1. rewrite Hrun.
    unfold seq at 1. rewrite Hall. cbn [length counters zip_with].
    rewrite Hh in Ht, Hd'. cbn [next_tempId Handler.tempId] in Ht, Hd'.
    split_and!.
    + done.
    + rewrite Ht. lia.
    + rewrite Hd', Hd. by rewrite <- app_assoc.
    + apply (counters_sorted _ (S (length l))).
    + apply (counters_temp_ids_NoDup _ (S (length l))).
    + by rewrite Hp, Hs.
    + intros _. destruct l as [|data2 l]; [|by apply Hc].
      cbn in Hall. injection Hall as <- <-. rewrite Hs.
      rewrite (isPostCreating_string _
                 ("_tmp_" +:+ pretty (Handler.tempId (handler w)))) by done.
      f_equal. apply (is_temp_id_temp_id (Handler.tempId (handler w))).
    + by constructor.
Qed.

(** ** Collisions between resource types *)

(** The table depends on the name through its upper-case form only, and
    within one table the twelve types are pairwise distinct. *)
Lemma action_strings_NoDup type : NoDup (action_strings (actions_of_type type)).
Proof.
  change (action_strings (actions_of_type type))
    with (type_of (actions_of_type type) <$> all_kinds).
  apply NoDup_fmap_2_strong.
  - intros k1 k2 _ _. apply type_of_inj.
  - unfold all_kinds. by apply (bool_decide_unpack _).
Qed.

(** Two names with different upper-case forms never get the same string
    for the same key. *)
Lemma same_key_distinct type1 type2 k :
  toUpperCase type1 ≠ toUpperCase type2 →
  type_of (actions_of_type type1) k ≠ type_of (actions_of_type type2) k.
Proof.
  intros Hne E. unfold actions_of_type in E. rewrite !type_of_tag in E.
  unfold tag in E. apply (inj _) in E. by apply app_inj_r in E.
Qed.

(** C9 (as amended). The table is a function of the upper-case form of the
    name. For two handlers whose names have the upper-case forms [u1] and
    [u2], no action type derived for one is an action type derived for the
    other exactly when [u1] and [u2] are separate: different, and neither
    of them the other followed by [_REQUEST] or by [_ERROR]. *)
Theorem derived_actions_collision_free (u1 u2 : string) :
  (∀ x y,
     x ∈ action_strings (derived_actions u1) →
     y ∈ action_strings (derived_actions u2) →
     x ≠ y)
  ↔ separate u1 u2.
Proof.
  split.
  - intros H.
    assert (∀ k1 k2,
              type_of (derived_actions u1) k1 ≠ type_of (derived_actions u2) k2)
      as Hk.
    { intros k1 k2. apply H.
      - change (action_strings (derived_actions u1))
          with (type_of (derived_actions u1) <$> all_kinds).
        apply list_elem_of_fmap. exists k1. split; [done|].
        destruct k1; unfold all_kinds; set_solver.
      - change (action_strings (derived_actions u2))
          with (type_of (derived_actions u2) <$> all_kinds).
        apply list_elem_of_fmap. exists k2. split; [done|].
        destruct k2; unfold all_kinds; set_solver. }
    unfold separate. split_and!; intros E.
    + apply (Hk ArchiveStart ArchiveStart). by rewrite E.
    + apply (Hk ArchiveSuccess ArchiveStart). cbn. by rewrite E.
    + apply (Hk ArchiveSuccess ArchiveError). cbn. by rewrite E.
    + apply (Hk ArchiveStart ArchiveSuccess). cbn. by rewrite E.
    + apply (Hk ArchiveError ArchiveSuccess). cbn. by rewrite E.
  - intros Hsep x y Hx Hy E.
    apply action_strings_shape in Hx as (v1 & s1 & Hv1 & Hs1 & ->).
    apply action_strings_shape in Hy as (v2 & s2 & Hv2 & Hs2 & ->).
    by apply (separate_tags _ _ v1 v2 s1 s2 Hsep).
Qed.

(** * Worked inputs *)

(** The scenario of the specification: archive [featured], server answer
    [[{id:1},{id:2}]], starting from the default substate. The reducer
    throws inside the chain, the error handler dispatches archiveError, and
    the store ends with no archive [featured] and with [posts] still the
    empty object. *)
Lemma featured_scenario_from_default_state :
  ∃ r w1,
    fetchArchive (JStr "featured") example_world = (Returns r, w1)
    ∧ ∃ w2,
        pending r (Returns [post 1 "a"; post 2 "b"]) w1 = (Throws TypeError, w2)
        ∧ Action.type <$> dispatched w2
          = ["QUERY_POST_REQUEST"; "QUERY_POST"; "QUERY_POST_ERROR"]
        ∧ Substate.loadingArchive (store w2) = JBool false
        ∧ Substate.archives (store w2) = Some ∅
        ∧ Substate.posts (store w2) = PostsObject.
Proof.
  eexists _, _. split; [by vm_compute|]. eexists. split; [by vm_compute|].
  by vm_compute.
Qed.

(** C4 on the handler of the scenario: the thunk for [featured] returns
    [undefined]. *)
Lemma fetchArchive_returns_undefined_witness :
  ∃ r w',
    fetchArchive (JStr "featured") example_world = (Returns r, w')
    ∧ returned r = None
    ∧ dispatched w'
      = dispatched example_world
        ++ [plain (archiveStart (actions_of_type "post")) (JStr "featured")]
    ∧ ∀ results,
        posts_usable (Substate.posts (store w')) = true →
        ∃ w'',
          pending r (Returns results) w' = (Returns (JStr "featured"), w'')
          ∧ dispatched w''
            = dispatched w'
              ++ [Action.mk (archiveSuccess (actions_of_type "post"))
                    (JStr "featured") None (Some results) None].
Proof.
  apply (fetchArchive_returns_undefined "post" example_world (JStr "featured")
           (QueryParams {[ "orderby" := JStr "date" ]})).
  - reflexivity.
  - vm_compute. reflexivity.
Defined.


(** C6 as stated fails: from an empty [posts], an archive answer that lists
    id 1 twice leaves two posts with id 1. *)
Lemma archiveSuccess_keeps_repeated_id :
  let state := with_posts (PostsArray []) DEFAULT_STATE in
  let action := archive_success "post" "featured" [post 1 "a"; post 1 "b"] in
  unique_ids (entities (Substate.posts state))
  ∧ carries_payload (actions_of_type "post") action
  ∧ ∃ state',
      reducer (actions_of_type "post") (Some state) action = Returns state'
      ∧ Substate.posts state' = PostsArray [post 1 "a"; post 1 "b"]
      ∧ ¬ unique_ids (entities (Substate.posts state')).
Proof.
  cbn zeta. split_and!.
  - constructor.
  - closed_action.
  - eexists. split; [by vm_compute|]. split; [done|].
    cbn. intros H. apply NoDup_cons in H as [H _]. apply H. by left.
Qed.

(** C9 as stated fails: [post] and [POST] are different names with the same
    twelve action types; [x] and [x_request] differ in upper case too, and
    the type of archiveStart for the first is the type of archiveSuccess
    for the second. *)
Lemma action_types_collide :
  "post" ≠ "POST"
  ∧ action_strings (actions_of_type "post") = action_strings (actions_of_type "POST")
  ∧ toUpperCase "x" ≠ toUpperCase "x_request"
  ∧ archiveStart (actions_of_type "x") = archiveSuccess (actions_of_type "x_request").
Proof. by split_and!. Qed.

(** C6 (as amended) on the run over one cached post. *)
Lemma reducer_preserves_unique_ids_witness :
  ∃ final,
    reduce_all (actions_of_type "post") example_state example_run = Returns final
    ∧ posts_usable (Substate.posts final) = true
    ∧ unique_ids (entities (Substate.posts final))
    ∧ ∀ key found, getArchive final key = Returns (Some found) → unique_ids found.
Proof.
  apply (reducer_preserves_unique_ids "post" example_state example_run).
  - reflexivity.
  - apply (bool_decide_unpack _). by vm_compute.
  - repeat (constructor; [closed_action|]). constructor.
  - repeat (constructor; [closed_action|]). constructor.
Defined.

(** C7 on the archive answer replayed over one cached post. *)
Lemma success_replay_idempotent_witness :
  ∃ once twice,
    reducer (actions_of_type "post") (Some example_state)
      (archive_success "post" "featured" [post 1 "a"; post 2 "b"]) = Returns once
    ∧ reducer (actions_of_type "post") (Some once)
        (archive_success "post" "featured" [post 1 "a"; post 2 "b"]) = Returns twice
    ∧ Substate.posts twice = Substate.posts once.
Proof.
  apply (success_replay_idempotent "post" example_state
           (archive_success "post" "featured" [post 1 "a"; post 2 "b"])
           [post 1 "old"]).
  - reflexivity.
  - apply list_elem_of_here.
  - closed_action.
Defined.

(** C8 on two creates from the fresh handler of the scenario. *)
Lemma createSingle_temp_ids_witness :
  ∃ rs w',
    create_all [ {[ "title" := JStr "new" ]}; {[ "title" := JStr "next" ]} ]
      example_world = (Returns rs, w')
    ∧ Handler.tempId (handler w') = (0 + 2)%N
    ∧ dispatched w'
      = dispatched example_world
        ++ zip_with (create_start "post") (counters 0 2)
             [ {[ "title" := JStr "new" ]}; {[ "title" := JStr "next" ]} ]
    ∧ StronglySorted N.lt (counters 0 2)
    ∧ NoDup (temp_id <$> counters 0 2)
    ∧ Substate.posts (store w') = Substate.posts (store example_world)
    ∧ ([ ({[ "title" := JStr "new" ]} : entity); {[ "title" := JStr "next" ]} ] ≠ [] →
       isPostCreating (store w') = Returns true)
    ∧ Forall (settles_without_temp "post") rs.
Proof.
  apply (createSingle_temp_ids "post" example_world
           [ {[ "title" := JStr "new" ]}; {[ "title" := JStr "next" ]} ]).
  reflexivity.
Defined.

(** C9 (as amended) on the resource types [pull_request] and [user]: the
    first ends in [_request], and still no action type is shared. *)
Lemma derived_actions_collision_free_witness :
  Forall (λ x, Forall (λ y, x ≠ y) (action_strings (actions_of_type "user")))
    (action_strings (actions_of_type "pull_request")).
Proof.
  apply Forall_forall. intros x Hx. apply Forall_forall. intros y Hy.
  revert x y Hx Hy.
  apply (derived_actions_collision_free (toUpperCase "pull_request")
           (toUpperCase "user")).
  unfold separate. by split_and!.
Defined.

(** * Further properties *)

(** ** Lists *)

Lemma filter_all {A} (f : A → bool) l :
  (∀ x, x ∈ l → f x = true) → List.filter f l = l.
Proof.
  induction l as [|x l IH]; cbn; [done|]. intros H.
  rewrite (H x (list_elem_of_here x l)). f_equal. apply IH. intros y Hy.
  apply H. by apply list_elem_of_further.
Qed.

Lemma find_app_first {A} (f : A → bool) l k :
  List.find f (l ++ k)
  = match List.find f l with Some x => Some x | None => List.find f k end.
Proof. induction l as [|x l IH]; cbn; [done|]. by destruct (f x). Qed.

Lemma find_filter_compatible {A} (f g : A → bool) l :
  (∀ x, f x = true → g x = true) →
  List.find f (List.filter g l) = List.find f l.
Proof.
  intros H. induction l as [|x l IH]; cbn; [done|].
  destruct (g x) eqn:Hg; cbn.
  - by rewrite IH.
  - destruct (f x) eqn:Hf; [|done]. apply H in Hf. congruence.
Qed.

Lemma find_filter_excluded {A} (f g : A → bool) l :
  (∀ x, f x = true → g x = false) →
  List.find f (List.filter g l) = None.
Proof.
  intros H. induction l as [|x l IH]; cbn; [done|].
  destruct (g x) eqn:Hg; cbn; [|done].
  destruct (f x) eqn:Hf; [|done]. apply H in Hf. congruence.
Qed.

Lemma strict_eq_false a b : strict_eq a b = false ↔ a ≠ b.
Proof. unfold strict_eq. apply bool_decide_eq_false. Qed.

(** ** Reading back what a success action stored *)

Lemma find_replace_post_same l data :
  List.find (λ post, strict_eq (prop post "id") (prop data "id")) (replace_post l data)
  = Some data.
Proof.
  unfold replace_post. rewrite find_app_first, find_filter_excluded.
  - cbn. by rewrite (proj2 (strict_eq_true _ _) eq_refl).
  - intros x Hx. by rewrite Hx.
Qed.

Lemma find_replace_post_other l data id :
  id ≠ prop data "id" →
  List.find (λ post, strict_eq (prop post "id") id) (replace_post l data)
  = List.find (λ post, strict_eq (prop post "id") id) l.
Proof.
  intros Hne. unfold replace_post. rewrite find_app_first, find_filter_compatible.
  - destruct (List.find _ l); [done|]. cbn.
    by rewrite (proj2 (strict_eq_false (prop data "id") id)).
  - intros x Hx. apply strict_eq_true in Hx. apply negb_true_iff.
    apply strict_eq_false. congruence.
Qed.

Lemma success_kind type action :
  Action.type action ∈ [getSuccess (actions_of_type type);
                         createSuccess (actions_of_type type);
                         updateSuccess (actions_of_type type)] →
  ∃ k, Action.type action = type_of (actions_of_type type) k
       ∧ k ∈ [GetSuccess; CreateSuccess; UpdateSuccess].
Proof.
  intros H. repeat (apply elem_of_cons in H as [H|H]);
    [ exists GetSuccess | exists CreateSuccess | exists UpdateSuccess
    | by apply elem_of_nil in H ];
    (split; [done|set_solver]).
Qed.

(** X1. After getSuccess, createSuccess or updateSuccess with entity [data]
    on a substate whose [posts] is an array, [getSingle] for the id of
    [data] gives [data] itself, whatever was cached under that id, and
    [getSingle] for every other id gives what it gave before. *)
Theorem getSingle_after_success
  (type : string) (state : Substate.t) (action : Action.t) (data : entity)
  (l : list entity) :
  Substate.posts state = PostsArray l →
  Action.type action ∈ [getSuccess (actions_of_type type);
                         createSuccess (actions_of_type type);
                         updateSuccess (actions_of_type type)] →
  Action.data action = Some data →
  ∃ state',
    reducer (actions_of_type type) (Some state) action = Returns state'
    ∧ getSingle state' (prop data "id") = Returns (SinglePost data)
    ∧ ∀ id, id ≠ prop data "id" → getSingle state' id = getSingle state id.
Proof.
  intros Hl Hty Hd. apply success_kind in Hty as (k & Hk & Hin).
  rewrite (reducer_transition type k) by done. cbn [default].
  destruct (transition_usable k state action) as (state' & Hret & Hs).
  { by rewrite Hl. }
  { intros ->. exfalso.
    repeat (apply elem_of_cons in Hin as [Hin|Hin]; [discriminate|]).
    by apply elem_of_nil in Hin. }
  { intros _. by rewrite Hd. }
  exists state'. split; [done|].
  assert (Substate.posts state' = PostsArray (replace_post l data)) as Hp.
  { repeat (apply elem_of_cons in Hin as [->|Hin]); [..|by apply elem_of_nil in Hin];
      destruct Hs as (x & Hx & ->); rewrite Hd in Hx; injection Hx as <-;
      by rewrite Hl. }
  unfold getSingle. rewrite Hp, Hl. split.
  - by rewrite find_replace_post_same.
  - intros id Hne. by rewrite find_replace_post_other.
Qed.

(** X2. After archiveSuccess on a substate whose [posts] is an array or
    absent, [getArchive] for the key of the action gives the result list of
    the action, entry for entry and in its order. *)
Theorem getArchive_after_archiveSuccess
  (type : string) (state : Substate.t) (action : Action.t)
  (results : list entity) :
  Action.type action = archiveSuccess (actions_of_type type) →
  Action.results action = Some results →
  posts_usable (Substate.posts state) = true →
  ∃ state',
    reducer (actions_of_type type) (Some state) action = Returns state'
    ∧ getArchive state' (Action.id action) = Returns (Some results).
Proof.
  intros Ht Hr Hp.
  destruct (reducer_archiveSuccess type state action results Ht Hr Hp)
    as (state' & Hred & _ & (archives & Ha & Hk) & Hposts).
  exists state'. split; [done|]. unfold getArchive.
  rewrite Ha, Hposts, Hk. do 2 f_equal.
  rewrite List.filter_app, filter_none, filter_all; [done| |].
  - intros e He. rewrite indexOf_present. apply bool_decide_eq_true.
    by apply elem_of_ids_of.
  - intros e He. apply list_elem_of_In, List.filter_In in He as [_ He].
    rewrite indexOf_present. apply bool_decide_eq_true in He.
    by apply bool_decide_eq_false.
Qed.


(** ** Ids are never lost *)

Lemma merge_results_keeps_ids l results id :
  id ∈ ids_of l ∨ id ∈ ids_of results → id ∈ ids_of (merge_results l results).
Proof.
  unfold merge_results. rewrite ids_of_app, elem_of_app.
  intros [H|H]; [|by right].
  destruct (decide (id ∈ ids_of results)) as [Hin|Hout]; [by right|left].
  unfold ids_of in H. apply list_elem_of_fmap in H as (e & -> & He).
  apply elem_of_ids_of, list_elem_of_In, List.filter_In.
  split; [by apply list_elem_of_In|].
  rewrite indexOf_absent. by apply bool_decide_eq_true.
Qed.

Lemma replace_post_keeps_ids l data id :
  id ∈ ids_of l → id ∈ ids_of (replace_post l data).
Proof.
  unfold replace_post. rewrite ids_of_app, elem_of_app. intros H.
  destruct (decide (id = prop data "id")) as [->|Hne].
  - right. apply list_elem_of_here.
  - left. unfold ids_of in H. apply list_elem_of_fmap in H as (e & -> & He).
    apply elem_of_ids_of, list_elem_of_In, List.filter_In.
    split; [by apply list_elem_of_In|].
    apply negb_true_iff. by apply strict_eq_false.
Qed.

(** What a transition does to [archives]. *)
Lemma transition_archives k state action state' :
  transition k state action = Returns state' →
  Substate.archives state'
  = match k, Action.results action with
    | ArchiveSuccess, Some results =>
        Some (spread_archives (Substate.archives state) (Action.id action)
                (ids_of results))
    | _, _ => Substate.archives state
    end.
Proof.
  intros H. destruct k; cbn in H; unfold put_post, bind, defined in H;
    destruct (Action.results action); simplify_eq; try done;
    repeat (case_match; simplify_eq); done.
Qed.

Lemma reducer_step_covered type state action :
  posts_usable (Substate.posts state) = true →
  archives_covered state →
  carries_payload (actions_of_type type) action →
  ∃ state',
    reducer (actions_of_type type) (Some state) action = Returns state'
    ∧ posts_usable (Substate.posts state') = true
    ∧ archives_covered state'
    ∧ ∀ id, id ∈ ids_of (entities (Substate.posts state)) →
            id ∈ ids_of (entities (Substate.posts state')).
Proof.
  intros Hp Hc Hpay.
  destruct (type_cases (actions_of_type type) (Action.type action)) as [[k Hk]|Hn].
  - rewrite (reducer_transition type k) by done. cbn [default].
    destruct (payload_of_kind type k action Hk Hpay) as [Hr Hd].
    destruct (transition_usable k state action Hp Hr Hd) as (state' & Hret & Hs).
    exists state'. split; [done|].
    pose proof (transition_archives k state action state' Hret) as Ha.
    assert (∀ id, id ∈ ids_of (entities (Substate.posts state)) →
                  id ∈ ids_of (entities (Substate.posts state'))) as Hmono.
    { destruct k; try (by rewrite Hs); destruct Hs as (x & Hx & ->); cbn;
        intros id Hid; auto using merge_results_keeps_ids, replace_post_keeps_ids. }
    split_and!; [|  |done].
    + destruct k; try (by rewrite Hs); by destruct Hs as (x & _ & ->).
    + intros archives key ids id Harch Hkey Hid.
      destruct k;
        try (rewrite Ha in Harch; apply Hmono; by eapply Hc).
      destruct Hs as (results & Hres & Hposts). rewrite Hres in Ha.
      rewrite Ha in Harch. injection Harch as <-. unfold spread_archives in Hkey.
      destruct (decide (to_string (Action.id action) = key)) as [<-|Hne].
      * rewrite lookup_insert_eq in Hkey. injection Hkey as <-.
        rewrite Hposts. cbn. apply merge_results_keeps_ids. by right.
      * rewrite lookup_insert_ne in Hkey by done. apply Hmono.
        destruct (Substate.archives state) as [archives|] eqn:Hold; cbn in Hkey.
        -- by eapply Hc.
        -- by rewrite lookup_empty in Hkey.
  - rewrite reducer_other by done. exists state. by split_and!.
Qed.

(** X4. On a substate whose [posts] is an array or absent and where every
    id stored for an archive is the id of a cached post, every run of
    actions that carry their payload goes through the reducer without an
    error and ends in such a substate again; no id that was in [posts] is
    lost on the way; and where the final [posts] is an array, [getArchive]
    for a stored key gives posts whose ids are exactly the stored ids. *)
Theorem archives_stay_covered
  (type : string) (state : Substate.t) (run : list Action.t) :
  posts_usable (Substate.posts state) = true →
  archives_covered state →
  Forall (carries_payload (actions_of_type type)) run →
  ∃ final,
    reduce_all (actions_of_type type) state run = Returns final
    ∧ posts_usable (Substate.posts final) = true
    ∧ archives_covered final
    ∧ (∀ id, id ∈ ids_of (entities (Substate.posts state)) →
             id ∈ ids_of (entities (Substate.posts final)))
    ∧ ∀ key archives ids l,
        Substate.archives final = Some archives →
        archives !! to_string key = Some ids →
        Substate.posts final = PostsArray l →
        ∃ found,
          getArchive final key = Returns (Some found)
          ∧ ∀ id, id ∈ ids_of found ↔ id ∈ ids.
Proof.
  revert state. induction run as [|action run IH]; intros state Hp Hc Hpay.
  - exists state. split_and!; try done.
    intros key archives ids l Ha Hk Hl. unfold getArchive. rewrite Ha, Hl, Hk.
    eexists. split; [done|]. intros id. split.
    + intros Hid. unfold ids_of in Hid.
      apply list_elem_of_fmap in Hid as (e & -> & He).
      apply list_elem_of_In, List.filter_In in He as [_ He].
      rewrite indexOf_present in He. by apply bool_decide_eq_true in He.
    + intros Hid. pose proof (Hc archives _ ids id Ha Hk Hid) as Hin.
      rewrite Hl in Hin. cbn in Hin. unfold ids_of in Hin.
      apply list_elem_of_fmap in Hin as (e & -> & He).
      apply elem_of_ids_of, list_elem_of_In, List.filter_In.
      split; [by apply list_elem_of_In|].
      rewrite indexOf_present. by apply bool_decide_eq_true.
  - apply Forall_cons in Hpay as [Hpay1 Hpay].
    destruct (reducer_step_covered type state action Hp Hc Hpay1)
      as (state' & Hs & Hp' & Hc' & Hmono).
    destruct (IH state' Hp' Hc' Hpay) as (final & Hf & Hpf & Hcf & Hmf & Hget).
    exists final. split_and!; try done.
    + cbn. by rewrite Hs.
    + intros id Hid. by apply Hmf, Hmono.
Qed.

(** ** Flags *)




(** ** Two handlers in one store *)

Lemma foreign_type_distinct u1 u2 x k :
  separate u1 u2 →
  x ∈ action_strings (derived_actions u2) →
  x ≠ type_of (derived_actions u1) k.
Proof.
  intros Hsep Hx E.
  apply action_strings_shape in Hx as (v2 & s2 & Hv2 & Hs2 & ->).
  rewrite type_of_tag in E. symmetry in E.
  by apply (separate_tags _ _ _ _ _ _ Hsep) in E;
    auto using kind_verb_elem, kind_suffix_elem.
Qed.

(** X7. Two handlers mounted in one store, for resource types whose names
    have the upper-case forms [u1] and [u2], with [u1] and [u2] separate
    (different, and neither of them the other followed by [_REQUEST] or by
    [_ERROR]): the reducer of the one returns its substate unchanged on
    every action of a type of the other, whatever the action carries. *)
Theorem reducer_ignores_other_handler
  (u1 u2 : string) (state : Substate.t) (action : Action.t) :
  separate u1 u2 →
  Action.type action ∈ action_strings (derived_actions u2) →
  reducer (derived_actions u1) (Some state) action = Returns state.
Proof.
  intros Hsep Hx. rewrite reducer_unknown; [done|].
  intros k. by apply (foreign_type_distinct u1 u2).
Qed.

(** ** The thunks, start to settlement *)

Lemma on_error_run type k id error w :
  Handler.actions (handler w) = actions_of_type type →
  k ∈ [ArchiveError; GetError; UpdateError; CreateError] →
  on_error (λ a, type_of a k) id error w
  = (after_error (handler w) error, failed k type id error w).
Proof.
  intros Ha Hk. unfold on_error, seq, console_log, this. cbn. rewrite Ha.
  rewrite (dispatch_transition type k) by done.
  repeat (apply elem_of_cons in Hk as [->|Hk]); [..|by apply elem_of_nil in Hk];
    cbn; unfold after_error; by destruct (Handler.rethrow (handler w)).
Qed.

Lemma getSingle_replace_post state l data :
  Substate.posts state = PostsArray (replace_post l data) →
  getSingle state (prop data "id") = Returns (SinglePost data).
Proof. intros H. unfold getSingle. by rewrite H, find_replace_post_same. Qed.

Lemma truthy_not_false id : truthy id = true → id ≠ JBool false.
Proof. by intros H ->. Qed.

(** X8. The thunk of [fetchSingle], for a handler with derived action
    types: it dispatches getStart, issues one GET for [url/id] whose
    [context] is the argument or ['view'] when there is none, over the
    default parameters of the handler, and returns its chain. When the
    request succeeds (on [posts] an array or absent) the chain dispatches
    getSuccess, resolves with the id that was asked for, the flag is reset
    and the entity is found under its own id. When the request fails the
    chain logs the error, dispatches getError with it, resets the flag, and
    rejects with the error or resolves with [undefined] as the rethrow flag
    says. *)
Theorem fetchSingle_flow
  (type : string) (w : world) (id : jsval) (context : option string) :
  let actions := actions_of_type type in
  Handler.actions (handler w) = actions →
  ∃ r,
    fetchSingle id context w
    = (Returns r,
       add_request
         {| req_method := "GET";
            req_url := Handler.url (handler w) +:+ "/" +:+ to_string id;
            req_args := {[ "context" := JStr (default "view" context) ]}
                        ∪ Handler.query (handler w);
            req_body := None |}
         (with_store (with_loadingPost id (store w))
            (add_dispatched (plain (getStart actions) id) w)))
    ∧ returned r = Some (pending r)
    ∧ (∀ data w2,
         Handler.actions (handler w2) = actions →
         posts_usable (Substate.posts (store w2)) = true →
         ∃ w3,
           pending r (Returns data) w2 = (Returns id, w3)
           ∧ dispatched w3
             = dispatched w2 ++ [Action.mk (getSuccess actions) id (Some data) None None]
           ∧ Substate.loadingPost (store w3) = JBool false
           ∧ getSingle (store w3) (prop data "id") = Returns (SinglePost data))
    ∧ (∀ error w2,
         Handler.actions (handler w2) = actions →
         pending r (Throws error) w2
         = (after_error (handler w2) error, failed GetError type id error w2)).
Proof.
  intros actions Ha. subst actions. unfold fetchSingle, seq, this. rewrite Ha.
  rewrite (dispatch_transition type GetStart) by done. cbn.
  eexists. split; [reflexivity|]. cbn. split_and!; [done| |].
  - intros data w2 Ha2 Hp. unfold catch_, then_, seq, this. cbn. rewrite Ha2.
    rewrite (dispatch_transition type GetSuccess) by done. cbn. unfold put_post.
    destruct (Substate.posts (store w2)) as [| |l|] eqn:Hposts; try done; cbn;
      (eexists; split_and!; [reflexivity|done|done|]).
    + by apply (getSingle_replace_post _ []).
    + by apply (getSingle_replace_post _ l).
  - intros error w2 Ha2. unfold catch_, then_, seq. cbn.
    by apply (on_error_run type GetError); [|set_solver].
Qed.

(** X9. The thunk of [updateSingle] on an entity whose id is truthy, for a
    handler with derived action types: it dispatches updateStart with the
    id and the entity, after which [isPostSaving] holds for the id, issues
    one PUT for [url/id] with the entity as body and [context: 'edit'], and
    returns its chain. When the request succeeds (on [posts] an array or
    absent) the chain dispatches updateSuccess, resolves with the id, the
    answer of the server is what [getSingle] finds under its id, and
    [isPostSaving] no longer holds. When the request fails the chain logs
    the error, dispatches updateError, after which [isPostSaving] no longer
    holds, and settles as the rethrow flag says. *)
Theorem updateSingle_flow (type : string) (w : world) (data : entity) :
  let actions := actions_of_type type in
  let id := prop data "id" in
  Handler.actions (handler w) = actions →
  truthy id = true →
  ∃ r w1,
    updateSingle data w = (Returns r, w1)
    ∧ w1 = add_request
             {| req_method := "PUT";
                req_url := Handler.url (handler w) +:+ "/" +:+ to_string id;
                req_args := {[ "context" := JStr "edit" ]} ∪ Handler.query (handler w);
                req_body := Some data |}
             (with_store (with_saving id (store w))
                (add_dispatched
                   (Action.mk (updateStart actions) id (Some data) None None) w))
    ∧ isPostSaving (store w1) id = true
    ∧ returned r = Some (pending r)
    ∧ (∀ data' w2,
         Handler.actions (handler w2) = actions →
         posts_usable (Substate.posts (store w2)) = true →
         ∃ w3,
           pending r (Returns data') w2 = (Returns id, w3)
           ∧ dispatched w3
             = dispatched w2
               ++ [Action.mk (updateSuccess actions) id (Some data') None None]
           ∧ getSingle (store w3) (prop data' "id") = Returns (SinglePost data')
           ∧ isPostSaving (store w3) id = false)
    ∧ (∀ error w2,
         Handler.actions (handler w2) = actions →
         pending r (Throws error) w2
         = (after_error (handler w2) error, failed UpdateError type id error w2)
         ∧ isPostSaving (store (failed UpdateError type id error w2)) id = false).
Proof.
  intros actions id Ha Hid. subst actions id.
  unfold updateSingle, seq, this. rewrite Hid. cbn [negb]. rewrite Ha.
  rewrite (dispatch_transition type UpdateStart) by done. cbn.
  pose proof (truthy_not_false _ Hid) as Hnf.
  assert (strict_eq (JBool false) (prop data "id") = false) as Hidle.
  { apply strict_eq_false. congruence. }
  eexists _, _. split; [reflexivity|]. cbn. split_and!; [done| |done| |].
  - by apply strict_eq_true.
  - intros data' w2 Ha2 Hp. unfold catch_, then_, seq, this. cbn. rewrite Ha2.
    rewrite (dispatch_transition type UpdateSuccess) by done. cbn. unfold put_post.
    destruct (Substate.posts (store w2)) as [| |l|] eqn:Hposts; try done; cbn;
      (eexists; split_and!; [reflexivity|done| |done]).
    + by apply (getSingle_replace_post _ []).
    + by apply (getSingle_replace_post _ l).
  - intros error w2 Ha2. unfold catch_, then_, seq. cbn. split; [|done].
    by apply (on_error_run type UpdateError); [|set_solver].
Qed.

(** X10. The thunk of [createSingle], for a handler with derived action
    types: it draws the temp id from the counter, dispatches createStart
    with it, issues one POST to the base url with the payload as body and
    [context: 'edit'], and returns its chain. When the request succeeds (on
    [posts] an array or absent) the chain dispatches createSuccess with the
    temp id and the entity of the server, resolves with the id of that
    entity and not with the temp id, [saving] is [false] and [getSingle]
    finds the entity under its id. When the request fails the chain logs
    the error, dispatches createError with the temp id and settles as the
    rethrow flag says. *)
Theorem createSingle_flow (type : string) (w : world) (data : entity) :
  let actions := actions_of_type type in
  let id := temp_id (Handler.tempId (handler w)) in
  Handler.actions (handler w) = actions →
  ∃ r,
    createSingle data w
    = (Returns r,
       add_request
         {| req_method := "POST";
            req_url := Handler.url (handler w);
            req_args := {[ "context" := JStr "edit" ]} ∪ Handler.query (handler w);
            req_body := Some data |}
         (with_store (with_saving id (store w))
            (add_dispatched (Action.mk (createStart actions) id (Some data) None None)
               (with_handler (next_tempId (handler w)) w))))
    ∧ returned r = Some (pending r)
    ∧ (∀ data' w2,
         Handler.actions (handler w2) = actions →
         posts_usable (Substate.posts (store w2)) = true →
         ∃ w3,
           pending r (Returns data') w2 = (Returns (prop data' "id"), w3)
           ∧ dispatched w3
             = dispatched w2
               ++ [Action.mk (createSuccess actions) id (Some data') None None]
           ∧ Substate.saving (store w3) = JBool false
           ∧ getSingle (store w3) (prop data' "id") = Returns (SinglePost data'))
    ∧ (∀ error w2,
         Handler.actions (handler w2) = actions →
         pending r (Throws error) w2
         = (after_error (handler w2) error, failed CreateError type id error w2)).
Proof.
  intros actions id Ha. subst actions id.
  unfold createSingle, seq, tempId_postincrement, this. cbn. rewrite Ha.
  rewrite (dispatch_transition type CreateStart) by done. cbn.
  eexists. split; [reflexivity|]. cbn. split_and!; [done| |].
  - intros data' w2 Ha2 Hp. unfold catch_, then_, seq, this. cbn. rewrite Ha2.
    rewrite (dispatch_transition type CreateSuccess) by done. cbn. unfold put_post.
    destruct (Substate.posts (store w2)) as [| |l|] eqn:Hposts; try done; cbn;
      (eexists; split_and!; [reflexivity|done|done|]).
    + by apply (getSingle_replace_post _ []).
    + by apply (getSingle_replace_post _ l).
  - intros error w2 Ha2. unfold catch_, then_, seq. cbn.
    by apply (on_error_run type CreateError); [|set_solver].
Qed.

(** X11. The thunk of [fetchArchive] on a registered key, for a handler
    with derived action types: it dispatches archiveStart and issues one
    GET to the base url whose parameters are the registered ones over the
    defaults of the handler, a registered parameter winning over a default
    of the same name. A query given as a function is applied to the state
    as it is after archiveStart, in which this key is the one being
    loaded. When the request fails the chain logs the error, dispatches
    archiveError, resets the flag and settles as the rethrow flag says. *)
Theorem fetchArchive_request
  (type : string) (w : world) (id : jsval) (query : query_spec) :
  let actions := actions_of_type type in
  let started := with_loadingArchive id (store w) in
  let args := resolve_query query started ∪ Handler.query (handler w) in
  Handler.actions (handler w) = actions →
  Handler.archives (handler w) !! to_string id = Some query →
  ∃ r,
    fetchArchive id w
    = (Returns r,
       add_request
         {| req_method := "GET"; req_url := Handler.url (handler w);
            req_args := args; req_body := None |}
         (with_store started (add_dispatched (plain (archiveStart actions) id) w)))
    ∧ isArchiveLoading started id = true
    ∧ (∀ name,
         args !! name
         = match resolve_query query started !! name with
           | Some v => Some v
           | None => Handler.query (handler w) !! name
           end)
    ∧ (∀ error w2,
         Handler.actions (handler w2) = actions →
         pending r (Throws error) w2
         = (after_error (handler w2) error, failed ArchiveError type id error w2)).
Proof.
  intros actions started args Ha Hq. subst actions started args.
  unfold fetchArchive, seq, this.
  rewrite (archives_entry_registered _ _ _ Hq), Ha.
  rewrite (dispatch_transition type ArchiveStart) by done. cbn.
  destruct query as [q|f]; cbn;
    (eexists; split; [reflexivity|]; cbn; split_and!;
     [ by apply strict_eq_true
     | intros name; rewrite lookup_union; by destruct (_ !! name), (_ !! name)
     | intros error w2 Ha2; unfold catch_, then_, seq; cbn;
       by apply (on_error_run type ArchiveError); [|set_solver] ]).
Qed.

(** ** Registering archives *)

(** X12. Registering a query under [key] makes [fetchArchive] go through
    for every id that names the same property as [key] ([1] and ['1']
    alike): it does not throw, and its request uses the query registered
    last under that property. For any other id, as long as no archive is
    registered under the key [__proto__], [fetchArchive] throws the
    invalid-archive error exactly when the id was not registered before
    and does not name a property inherited from [Object.prototype]; the
    world is then left as it was. *)
Theorem registerArchive_then_fetchArchive
  (type : string) (w : world) (key id : jsval) (query : query_spec) :
  let w' := with_handler (registerArchive key query (handler w)) w in
  Handler.actions (handler w) = actions_of_type type →
  safe_integer key →
  safe_integer id →
  (to_string id = to_string key →
     is_thrown (fst (fetchArchive id w')) = false
     ∧ requests (snd (fetchArchive id w'))
       = requests w
         ++ [ {| req_method := "GET"; req_url := Handler.url (handler w);
                 req_args := resolve_query query (with_loadingArchive id (store w))
                             ∪ Handler.query (handler w);
                 req_body := None |} ])
  ∧ (to_string id ≠ to_string key →
     to_string key ≠ "__proto__" →
     plain_archives (handler w) →
     (fst (fetchArchive id w') = Throws (invalid_archive id)
      ↔ Handler.archives (handler w) !! to_string id = None ∧ own_name id)
     ∧ (fst (fetchArchive id w') = Throws (invalid_archive id) →
        fetchArchive id w' = (Throws (invalid_archive id), w'))).
Proof.
  intros w' Ha _ _. subst w'. split.
  - intros Heq. unfold fetchArchive, seq, this, archives_entry. cbn.
    rewrite Heq, lookup_insert_eq, Ha.
    rewrite (dispatch_transition type ArchiveStart) by done. cbn.
    by destruct query.
  - intros Hne _ _.
    assert (Handler.archives
              (handler (with_handler (registerArchive key query (handler w)) w))
              !! to_string id
            = Handler.archives (handler w) !! to_string id) as Hsame.
    { cbn. by rewrite lookup_insert_ne. }
    split.
    + by rewrite fetchArchive_invalid, Hsame.
    + intros H. apply fetchArchive_invalid, archives_entry_None in H.
      unfold fetchArchive, seq, this. by rewrite H.
Qed.

(** X13. A handler fresh from the constructor, with one archive of static
    parameters registered: the thunk of [fetchArchive] for its key issues
    exactly one request, to the url of the options. The nonce of the
    options is sent as [_wpnonce] even when the default query of the
    options has a [_wpnonce] of its own, unless the archive registers a
    [_wpnonce], which then wins; every other parameter is the registered
    one, or else the default one. *)
Theorem fresh_handler_request
  (o : options) (key : jsval) (q : params) (state : Substate.t) :
  let w := {| handler := registerArchive key (QueryParams q) (constructor o);
              store := state; dispatched := []; console := []; requests := [] |} in
  ∃ r w' req,
    fetchArchive key w = (Returns r, w')
    ∧ requests w' = [req]
    ∧ req_method req = "GET"
    ∧ req_url req = opt_url o
    ∧ req_args req !! "_wpnonce" = Some (default (opt_nonce o) (q !! "_wpnonce"))
    ∧ ∀ name, name ≠ "_wpnonce" →
              req_args req !! name
              = match q !! name with
                | Some v => Some v
                | None => opt_query o !! name
                end.
Proof.
  intros w. subst w. unfold fetchArchive, seq, this, archives_entry. cbn.
  rewrite lookup_insert_eq.
  rewrite (dispatch_transition (opt_type o) ArchiveStart) by done. cbn.
  eexists _, _,
    {| req_method := "GET"; req_url := opt_url o;
       req_args := q ∪ <[ "_wpnonce" := opt_nonce o ]> (opt_query o);
       req_body := None |}.
  split; [reflexivity|]. split_and!; [done..| |]; cbn [req_args].
  - rewrite lookup_union, lookup_insert_eq. by destruct (q !! "_wpnonce").
  - intros name Hne. rewrite lookup_union, lookup_insert_ne by done.
    by destruct (q !! name), (opt_query o !! name).
Qed.

(** ** The response parser *)

Lemma pretty_N_go_nonempty x s : s ≠ "" → pretty_N_go x s ≠ "".
Proof.
  revert s. induction (N.lt_wf_0 x) as [x _ IH]; intros s Hs.
  assert (x = 0 ∨ 0 < x)%N as [->|Hx] by lia.
  - by rewrite pretty_N_go_0.
  - rewrite pretty_N_go_step by done. apply IH; [by apply N.div_lt|done].
Qed.

Lemma pretty_Z_nonempty (n : Z) : pretty n ≠ "".
Proof.
  destruct n as [|p|p]; [done| |done].
  unfold pretty, pretty_Z, pretty, pretty_positive, pretty, pretty_N.
  case_decide; [done|].
  rewrite pretty_N_go_step by lia. by apply pretty_N_go_nonempty.
Qed.

Lemma to_string_nonempty v : truthy v = true → to_string v ≠ "".
Proof.
  destruct v as [| |[]|n|s]; cbn; try done.
  - intros _. apply pretty_Z_nonempty.
  - intros H ->. done.
Qed.

Lemma or_else_truthy a b : json_truthy b = true → json_truthy (or_else a b) = true.
Proof. intros Hb. unfold or_else. by destruct (json_truthy a) eqn:Ha. Qed.

Lemma all_returned_error {A} (l : list (completion A)) e :
  all_returned l = Throws e → ∃ c, c ∈ l ∧ c = Throws e.
Proof.
  induction l as [|c l IH]; [done|]. cbn.
  destruct c as [a|e']; cbn.
  - destruct (all_returned l) as [rest|e'']; [done|]. intros [= ->].
    destruct IH as (c & Hc & ->); [done|]. exists (Throws e). split; [|done].
    by apply list_elem_of_further.
  - intros [= ->]. exists (Throws e). split; [apply list_elem_of_here|done].
Qed.

(** A conversion to a string fails with a TypeError only. *)
Lemma json_to_string_error (v : json) :
  ∀ e, json_to_string v = Throws e → e = TypeError.
Proof.
  revert v. fix IH 1. intros [s|items|members].
  - done.
  - assert (Forall (λ item, ∀ e, json_to_string item = Throws e → e = TypeError)
              items) as Hitems.
    { induction items as [|item items IHitems]; constructor;
        [exact (IH item)|exact IHitems]. }
    clear IH. intros e. cbn.
    destruct (all_returned _) as [strings|e'] eqn:Hall; [done|]. cbn. intros [= ->].
    apply all_returned_error in Hall as (c & Hc & ->).
    apply list_elem_of_fmap in Hc as (item & Hc & Hitem).
    rewrite Forall_forall in Hitems. specialize (Hitems item Hitem).
    destruct item as [[| |b|n|s']|items'|members']; try done; by apply Hitems.
  - clear IH. intros e. cbn. case_bool_decide; [|done]. by intros [= <-].
Qed.

(** X14. [parseResponse] resolves exactly when the body parses and the
    response is [ok], and then with the body as it is. When it rejects with
    the error it builds, the response was not [ok] and the error carries
    the response and the parsed body; its message is the string form of
    the [message] of the body, or ["Unknown server error"] when the body
    has no [message] or a falsy one; its code is the [code] of the body,
    or ["__unknown"] when the body has no [code] or a falsy one, so that
    the code is never falsy. A body that is not [null], on a response that
    is not [ok], always leads to this error when its [message] is absent or
    a scalar, and the message of the error is then never empty. Any other
    rejection is the one of [resp.json()], or a TypeError: from the read of
    [message] on a body that is [null], or from a [message] that is an
    array or an object and cannot be converted to a string. *)
Theorem parseResponse_settles (resp : response) :
  (∀ data, parseResponse resp = Resolves data
           ↔ resp_ok resp = true ∧ resp_json resp = Returns data)
  ∧ (∀ err, parseResponse resp = RejectsWith err →
            resp_ok resp = false
            ∧ resp_json resp = Returns (err_data err)
            ∧ err_response err = resp
            ∧ (∃ message,
                 member (err_data err) "message" = Returns message
                 ∧ (json_truthy message = true →
                    json_to_string message = Returns (err_message err))
                 ∧ (json_truthy message = false →
                    err_message err = "Unknown server error"))
            ∧ (∃ code,
                 member (err_data err) "code" = Returns code
                 ∧ (json_truthy code = true → err_code err = code)
                 ∧ (json_truthy code = false →
                    err_code err = JsonScalar (JStr "__unknown")))
            ∧ json_truthy (err_code err) = true)
  ∧ (∀ data message,
       resp_ok resp = false →
       resp_json resp = Returns data →
       member data "message" = Returns (JsonScalar message) →
       ∃ err, parseResponse resp = RejectsWith err
              ∧ err_message err
                = (if truthy message then to_string message
                   else "Unknown server error")
              ∧ err_message err ≠ "")
  ∧ (∀ e, parseResponse resp = Rejects e →
          resp_json resp = Throws e
          ∨ (resp_ok resp = false ∧ e = TypeError
             ∧ ∃ data,
                 resp_json resp = Returns data
                 ∧ (data = JsonScalar JNull ∨ data = JsonScalar JUndefined
                    ∨ ∃ message,
                        member data "message" = Returns message
                        ∧ json_truthy message = true
                        ∧ (∀ s, message ≠ JsonScalar s)
                        ∧ json_to_string message = Throws TypeError))).
Proof.
  unfold parseResponse.
  destruct (resp_json resp) as [data|e0] eqn:Hj.
  2: { split_and!; try done.
       - intros d. split; [done|by intros [_ ?]].
       - intros e [= <-]. by left. }
  destruct (resp_ok resp) eqn:Hok.
  { split_and!; try done. intros d. split; [by intros [= ->]|by intros [_ [= ->]]]. }
  assert (∀ k, (∃ v, member data k = Returns v)
               ∨ (member data k = Throws TypeError
                  ∧ (data = JsonScalar JNull ∨ data = JsonScalar JUndefined)))
    as Hmember.
  { intros k. destruct data as [[| |b|n|s]|items|members]; cbn; eauto. }
  destruct (Hmember "message") as [[message Hm]|[Hm Hnull]]; rewrite Hm.
  2: { split_and!; try done.
       - intros d. split; [done|by intros [? _]].
       - intros d message _ [= <-] Hm'. by rewrite Hm in Hm'.
       - intros e [= <-]. right. split_and!; try done. exists data. by intuition. }
  destruct (Hmember "code") as [[code Hc]|[Hc Hnull]].
  2: { rewrite Hc in *. destruct Hnull as [->| ->]; by simplify_eq/=. }
  rewrite Hc.
  destruct (json_to_string (or_else message _)) as [text|e1] eqn:Htext.
  - split_and!.
    + intros d. split; [done|by intros [? _]].
    + intros err [= <-]. cbn. split_and!; try done.
      * exists message. split; [done|]. unfold or_else in Htext.
        destruct (json_truthy message); cbn in Htext; split; try done.
        by intros _; injection Htext as <-.
      * exists code. split; [done|]. unfold or_else.
        by destruct (json_truthy code).
      * by apply or_else_truthy.
    + intros d message' _ [= <-] Hm'. rewrite Hm in Hm'. injection Hm' as ->.
      eexists. split; [done|]. cbn. unfold or_else in Htext. cbn in Htext.
      destruct (truthy message') eqn:Ht; cbn in Htext; injection Htext as <-.
      * split; [done|]. by apply to_string_nonempty.
      * done.
    + done.
  - split_and!.
    + intros d. split; [done|by intros [? _]].
    + done.
    + intros d message' _ [= <-] Hm'. rewrite Hm in Hm'. injection Hm' as ->.
      unfold or_else in Htext. cbn in Htext. by destruct (truthy message').
    + intros e [= <-]. right.
      pose proof (json_to_string_error _ _ Htext) as ->.
      split_and!; try done. exists data. split; [done|]. right. right.
      exists message. unfold or_else in Htext.
      destruct (json_truthy message) eqn:Ht; [|done].
      split_and!; try done. intros s ->. done.
Qed.

(** ** A store that starts from the default substate *)

Lemma reducer_keeps_unusable_posts actions state action state' :
  posts_usable (Substate.posts state) = false →
  reducer actions (Some state) action = Returns state' →
  Substate.posts state' = Substate.posts state.
Proof.
  unfold reducer, replace_existing, bind, defined, posts_or_empty_filter.
  change (default DEFAULT_STATE (Some state)) with state. intros Hp H.
  destruct (Substate.posts state) eqn:Hposts; try done;
    repeat (case_match; simplify_eq); done.
Qed.

(** X15. Where [posts] is neither an array of entities nor absent, as in
    the default substate with its [{}], no action dispatched to the store
    ever changes it, whatever the table of action types: the cache stays
    empty, [getSingle] throws for every id and [getArchive] never gives a
    list. *)
Theorem unusable_posts_never_recover
  (w : world) (run : list Action.t) (id : jsval) :
  posts_usable (Substate.posts (store w)) = false →
  let final := store (dispatch_all run w) in
  Substate.posts final = Substate.posts (store w)
  ∧ getSingle final id = Throws TypeError
  ∧ (getArchive final id = Returns None ∨ getArchive final id = Throws TypeError).
Proof.
  intros Hp final. subst final.
  assert (Substate.posts (store (dispatch_all run w)) = Substate.posts (store w))
    as Hkeep.
  { revert w Hp. induction run as [|action run IH]; intros w Hp; [done|].
    cbn [dispatch_all].
    assert (Substate.posts (store (snd (dispatch action w)))
            = Substate.posts (store w)) as Hstep.
    { unfold dispatch.
      destruct (reducer _ _ _) as [s|e] eqn:Hr; cbn; [|done].
      by apply (reducer_keeps_unusable_posts _ _ _ _ Hp Hr). }
    rewrite IH; [done|]. by rewrite Hstep. }
  split; [done|]. unfold getSingle, getArchive. rewrite Hkeep.
  destruct (Substate.posts (store w)); try done;
    (split; [done|]);
    destruct (Substate.archives _) as [archives|]; auto;
    destruct (archives !! to_string id); auto;
    case_bool_decide; auto.
Qed.

(** X16. When the request of [fetchSingle] succeeds on a store whose
    [posts] is neither an array nor absent, the reducer throws while
    getSuccess is dispatched, and the chain treats this like a failed
    request: the TypeError is logged and dispatched as getError after the
    getSuccess action, the flag is reset, and the chain rejects with the
    TypeError or resolves with [undefined] as the rethrow flag says. *)
Theorem fetchSingle_success_on_unusable_posts
  (type : string) (w : world) (id : jsval) (context : option string) :
  let actions := actions_of_type type in
  Handler.actions (handler w) = actions →
  ∃ r w1,
    fetchSingle id context w = (Returns r, w1)
    ∧ ∀ data w2,
        Handler.actions (handler w2) = actions →
        posts_usable (Substate.posts (store w2)) = false →
        pending r (Returns data) w2
        = (after_error (handler w2) TypeError,
           failed GetError type id TypeError
             (add_dispatched
                (Action.mk (getSuccess actions) id (Some data) None None) w2)).
Proof.
  intros actions Ha. subst actions. unfold fetchSingle, seq, this. rewrite Ha.
  rewrite (dispatch_transition type GetStart) by done. cbn.
  eexists _, _. split; [reflexivity|]. cbn.
  intros data w2 Ha2 Hp. unfold catch_, then_, seq, this. cbn. rewrite Ha2.
  rewrite (dispatch_transition type GetSuccess) by done. cbn. unfold put_post.
  assert (GetError ∈ [ArchiveError; GetError; UpdateError; CreateError]) as Hk
    by set_solver.
  destruct (Substate.posts (store w2)) eqn:Hposts; try done; cbn;
    match goal with
    | |- on_error _ ?i ?e ?w0 = _ => exact (on_error_run type GetError i e w0 Ha2 Hk)
    end.
Qed.

(** * Further worked inputs *)

(** X1 on post 1 fetched anew over its cached version. *)
Lemma getSingle_after_success_witness :
  ∃ state',
    reducer (actions_of_type "post") (Some example_state)
      (get_success "post" (post 1 "new")) = Returns state'
    ∧ getSingle state' (prop (post 1 "new") "id") = Returns (SinglePost (post 1 "new"))
    ∧ ∀ id, id ≠ prop (post 1 "new") "id" →
            getSingle state' id = getSingle example_state id.
Proof.
  apply (getSingle_after_success "post" example_state
           (get_success "post" (post 1 "new")) (post 1 "new") [post 1 "old"]).
  - reflexivity.
  - apply list_elem_of_here.
  - reflexivity.
Defined.

(** X2 on the archive [featured] answered with posts 1 and 2. *)
Lemma getArchive_after_archiveSuccess_witness :
  ∃ state',
    reducer (actions_of_type "post") (Some example_state)
      (archive_success "post" "featured" [post 1 "a"; post 2 "b"]) = Returns state'
    ∧ getArchive state' (JStr "featured") = Returns (Some [post 1 "a"; post 2 "b"]).
Proof.
  apply (getArchive_after_archiveSuccess "post" example_state
           (archive_success "post" "featured" [post 1 "a"; post 2 "b"])
           [post 1 "a"; post 2 "b"]); reflexivity.
Defined.


(** X4 on the run over one cached post. *)
Lemma archives_stay_covered_witness :
  ∃ final,
    reduce_all (actions_of_type "post") example_state example_run = Returns final
    ∧ posts_usable (Substate.posts final) = true
    ∧ archives_covered final
    ∧ (∀ id, id ∈ ids_of (entities (Substate.posts example_state)) →
             id ∈ ids_of (entities (Substate.posts final)))
    ∧ ∀ key archives ids l,
        Substate.archives final = Some archives →
        archives !! to_string key = Some ids →
        Substate.posts final = PostsArray l →
        ∃ found,
          getArchive final key = Returns (Some found)
          ∧ ∀ id, id ∈ ids_of found ↔ id ∈ ids.
Proof.
  apply (archives_stay_covered "post" example_state example_run).
  - reflexivity.
  - intros archives key ids id Ha Hk. injection Ha as <-.
    by rewrite lookup_empty in Hk.
  - repeat (constructor; [closed_action|]). constructor.
Defined.



(** X7 on a handler for [pull_request] receiving the getStart of a handler
    for [user]. *)
Lemma reducer_ignores_other_handler_witness :
  reducer (actions_of_type "pull_request") (Some example_state)
    (plain (getStart (actions_of_type "user")) (JNum 1))
  = Returns example_state.
Proof.
  apply (reducer_ignores_other_handler (toUpperCase "pull_request")
           (toUpperCase "user")).
  - unfold separate. by split_and!.
  - do 3 apply list_elem_of_further. apply list_elem_of_here.
Defined.

(** X8 on a fetch of post 5 with no context given: success over the cached
    post, and failure. *)
Lemma fetchSingle_flow_witness :
  ∃ r w1,
    fetchSingle (JNum 5) None example_world = (Returns r, w1)
    ∧ req_args <$> requests w1 = [ {[ "context" := JStr "view"; "_wpnonce" := JStr "nonce" ]} ]
    ∧ returned r = Some (pending r)
    ∧ (∃ w3,
         pending r (Returns (post 5 "x")) cached_world = (Returns (JNum 5), w3)
         ∧ getSingle (store w3) (JNum 5) = Returns (SinglePost (post 5 "x")))
    ∧ fst (pending r (Throws (Error "offline")) cached_world)
      = Throws (Error "offline").
Proof.
  destruct (fetchSingle_flow "post" example_world (JNum 5) None)
    as (r & Hrun & Hret & Hok & Hfail); [reflexivity|].
  eexists r, _. split; [exact Hrun|]. split; [by vm_compute|].
  split; [exact Hret|]. split.
  - destruct (Hok (post 5 "x") cached_world) as (w3 & H1 & _ & _ & H2);
      [reflexivity..|].
    exists w3. by split.
  - by rewrite (Hfail (Error "offline") cached_world).
Defined.

(** X9 on an update of post 1 over its cached version. *)
Lemma updateSingle_flow_witness :
  ∃ r w1,
    updateSingle (post 1 "x") cached_world = (Returns r, w1)
    ∧ isPostSaving (store w1) (JNum 1) = true
    ∧ req_method <$> requests w1 = ["PUT"]
    ∧ ∃ w3,
        pending r (Returns (post 1 "y")) w1 = (Returns (JNum 1), w3)
        ∧ getSingle (store w3) (JNum 1) = Returns (SinglePost (post 1 "y"))
        ∧ isPostSaving (store w3) (JNum 1) = false.
Proof.
  destruct (updateSingle_flow "post" cached_world (post 1 "x"))
    as (r & w1 & Hrun & Hw1 & Hsaving & _ & Hok & _); [reflexivity..|].
  exists r, w1. split; [exact Hrun|]. split; [exact Hsaving|].
  split; [by rewrite Hw1|].
  destruct (Hok (post 1 "y") w1) as (w3 & H1 & _ & H2 & H3);
    [by rewrite Hw1..|].
  exists w3. by split_and!.
Defined.

(** X10 on a create whose server answer is post 42. *)
Lemma createSingle_flow_witness :
  ∃ r w1,
    createSingle {[ "title" := JStr "new" ]} cached_world = (Returns r, w1)
    ∧ Substate.saving (store w1) = JStr "_tmp_0"
    ∧ ∃ w3,
        pending r (Returns (post 42 "new")) w1 = (Returns (JNum 42), w3)
        ∧ Substate.saving (store w3) = JBool false
        ∧ getSingle (store w3) (JNum 42) = Returns (SinglePost (post 42 "new")).
Proof.
  destruct (createSingle_flow "post" cached_world {[ "title" := JStr "new" ]})
    as (r & Hrun & _ & Hok & _); [reflexivity|].
  eexists r, _. split; [exact Hrun|]. split; [reflexivity|].
  match goal with
  | |- ∃ w3, pending r _ ?w1 = _ ∧ _ =>
      destruct (Hok (post 42 "new") w1) as (w3 & H1 & _ & H2 & H3);
        [reflexivity..|]
  end.
  exists w3. by split_and!.
Defined.

(** X11 on the archive [featured] of the scenario. *)
Lemma fetchArchive_request_witness :
  ∃ r w1,
    fetchArchive (JStr "featured") example_world = (Returns r, w1)
    ∧ req_args <$> requests w1
      = [ {[ "orderby" := JStr "date"; "_wpnonce" := JStr "nonce" ]} ]
    ∧ fst (pending r (Throws (Error "offline")) w1) = Throws (Error "offline").
Proof.
  destruct (fetchArchive_request "post" example_world (JStr "featured")
              (QueryParams {[ "orderby" := JStr "date" ]}))
    as (r & Hrun & _ & _ & Hfail); [reflexivity|by vm_compute|].
  eexists r, _. split; [exact Hrun|]. split; [by vm_compute|].
  by rewrite Hfail.
Defined.

(** X12 on an archive registered under the number 1 and fetched under the
    string ['1']. *)
Lemma registerArchive_then_fetchArchive_witness :
  is_thrown
    (fst (fetchArchive (JStr "1")
            (with_handler
               (registerArchive (JNum 1) (QueryParams ∅) (handler example_world))
               example_world))) = false
  ∧ requests
      (snd (fetchArchive (JStr "1")
              (with_handler
                 (registerArchive (JNum 1) (QueryParams ∅) (handler example_world))
                 example_world)))
    = requests example_world
      ++ [ {| req_method := "GET"; req_url := Handler.url (handler example_world);
              req_args := resolve_query (QueryParams ∅)
                            (with_loadingArchive (JStr "1") (store example_world))
                          ∪ Handler.query (handler example_world);
              req_body := None |} ].
Proof.
  apply (registerArchive_then_fetchArchive "post" example_world (JNum 1) (JStr "1")
           (QueryParams ∅)).
  - reflexivity.
  - cbn. lia.
  - exact I.
  - reflexivity.
Defined.

(** X15 on the store of the scenario, which holds the default substate. *)
Lemma unusable_posts_never_recover_witness :
  Substate.posts (store (dispatch_all example_run example_world))
  = Substate.posts (store example_world)
  ∧ getSingle (store (dispatch_all example_run example_world)) (JNum 1)
    = Throws TypeError
  ∧ (getArchive (store (dispatch_all example_run example_world)) (JNum 1)
     = Returns None
     ∨ getArchive (store (dispatch_all example_run example_world)) (JNum 1)
       = Throws TypeError).
Proof.
  apply (unusable_posts_never_recover example_world example_run (JNum 1)).
  reflexivity.
Defined.

(** X16 on a fetch of post 5 answered while the store holds the default
    substate. *)
Lemma fetchSingle_success_on_unusable_posts_witness :
  ∃ r w1,
    fetchSingle (JNum 5) None example_world = (Returns r, w1)
    ∧ fst (pending r (Returns (post 5 "x")) w1) = Throws TypeError
    ∧ Action.type <$> dispatched (snd (pending r (Returns (post 5 "x")) w1))
      = ["LOAD_POST_REQUEST"; "LOAD_POST"; "LOAD_POST_ERROR"].
Proof.
  destruct (fetchSingle_success_on_unusable_posts "post" example_world (JNum 5) None)
    as (r & w1 & Hrun & Hok); [reflexivity|].
  exists r, w1. split; [exact Hrun|].
  assert (w1 = snd (fetchSingle (JNum 5) None example_world)) as Hw1
    by by rewrite Hrun.
  rewrite (Hok (post 5 "x") w1) by (rewrite Hw1; reflexivity).
  rewrite Hw1. split; by vm_compute.
Defined.

(** [getArchive] on a key that names an inherited property and is stored
    for no archive: the inherited value passes for the list of ids, and the
    filter fails at the first post, or gives the empty list when there is
    no post. *)
Lemma getArchive_inherited_name :
  getArchive example_state (JStr "constructor") = Throws TypeError
  ∧ getArchive (with_posts (PostsArray []) DEFAULT_STATE) (JStr "constructor")
    = Returns (Some [])
  ∧ getArchive example_state (JStr "other") = Returns None.
Proof. by split_and!. Qed.

(** [parseResponse] on a response that is not [ok]: a body with a message
    and a code, the empty object, and a body whose [message] is the empty
    array, which is truthy and has the empty string for string form. *)
Lemma parseResponse_bodies :
  let rejected body := parseResponse {| resp_ok := false; resp_json := Returns body |} in
  let forbidden :=
    JsonObject {[ "code" := JsonScalar (JStr "rest_forbidden");
                  "message" := JsonScalar (JStr "Sorry") ]} in
  (∃ err, rejected forbidden = RejectsWith err
          ∧ err_message err = "Sorry"
          ∧ err_code err = JsonScalar (JStr "rest_forbidden"))
  ∧ (∃ err, rejected (JsonObject ∅) = RejectsWith err
            ∧ err_message err = "Unknown server error"
            ∧ err_code err = JsonScalar (JStr "__unknown"))
  ∧ (∃ err, rejected (JsonObject {[ "message" := JsonArray [] ]}) = RejectsWith err
            ∧ err_message err = "")
  ∧ rejected (JsonScalar JNull) = Rejects TypeError.
Proof.
  cbn zeta. split_and!; [eexists; by split_and!..|done].
Qed.

(** [fetchArchive] on keys that are not registered but name a property
    every object inherits. The guard lets them through and archiveStart is
    dispatched. For [hasOwnProperty] the call of the inherited function
    then fails: the thunk throws a TypeError, no request is issued, and the
    store is left loading. For [__proto__] the request goes out with the
    default parameters alone. *)
Lemma fetchArchive_inherited_name :
  Handler.archives (handler example_world) !! "hasOwnProperty" = None
  ∧ Handler.archives (handler example_world) !! "__proto__" = None
  ∧ (∃ w',
       fetchArchive (JStr "hasOwnProperty") example_world = (Throws TypeError, w')
       ∧ dispatched w' = [plain "QUERY_POST_REQUEST" (JStr "hasOwnProperty")]
       ∧ Substate.loadingArchive (store w') = JStr "hasOwnProperty"
       ∧ requests w' = [])
  ∧ (∃ r w',
       fetchArchive (JStr "__proto__") example_world = (Returns r, w')
       ∧ dispatched w' = [plain "QUERY_POST_REQUEST" (JStr "__proto__")]
       ∧ req_args <$> requests w' = [Handler.query (handler example_world)]).
Proof.
  split_and!; [done|done| |].
  - eexists. split; [by vm_compute|]. by split_and!.
  - eexists _, _. split; [by vm_compute|]. split; [done|].
    by vm_compute.
Qed.
